(** * MCMC_BHPIRE: the sampler engine of [chain.c]

    A shallow embedding of the target-distribution evaluator ([model],
    [prior], [like], [post]), of the Box-Muller proposal generator
    ([gauss]), of the Metropolis loop of [walkers] and of its rank-ordered
    chain writer, with the properties that the specification states about
    them, and of the reader of the data file ([readData] of [readdata.c]).

    A C [double] is a binary64 number: Rocq's primitive [float], with its
    single NaN, signed zeros and infinities.  The arithmetic operators and
    [sqrt] are the IEEE operations of [PrimFloat].  The functions of
    <math.h> that are not IEEE basic operations ([exp], [log], [cos],
    [sin]) are an interface, [Libm]; the random series of the Mersenne
    Twister is an interface, [MTgen]. *)

From Stdlib Require Import ZArith Floats Lia Bool.
From stdpp Require Import base list relations.

Set Warnings "-inexact-float".
Set Default Proof Using "Type".
Open Scope Z_scope.

(** ** C data *)

(** An array of doubles is a list; [a.[i]] reads cell [i] of it.  The source
    reads its arrays at indices that its callers keep in range; outside the
    list the model reads [0]. *)
#[global] Instance float_inhabited : Inhabited float := populate 0%float.

Definition arr (a : list float) (i : Z) : float := a !!! Z.to_nat i.
Notation "a .[ i ]" := (arr a i) (at level 1, i at level 200, left associativity,
                                  format "a .[ i ]").

(** [for (i = lo; i <= hi; i++) body] on a state [s]. *)
Fixpoint for_loop {S : Type} (n : nat) (i : Z) (body : Z → S → S) (s : S) : S :=
  match n with
  | O => s
  | Datatypes.S n' => for_loop n' (i + 1) body (body i s)
  end.

Definition for_upto {S : Type} (lo hi : Z) (body : Z → S → S) (s : S) : S :=
  for_loop (Z.to_nat (hi - lo + 1)) lo body s.

(** Conversion of a C [int] to [double]; exact, an [int] has 32 bits. *)
Definition double_of_int (z : Z) : float :=
  if z <? 0 then (- of_uint63 (Uint63.of_Z (- z)))%float
  else of_uint63 (Uint63.of_Z z).

(** Conversion of a [uint32] to [double], with the wrap-around of the type. *)
Definition double_of_uint32 (z : Z) : float :=
  of_uint63 (Uint63.of_Z (z mod 2 ^ 32)).

(** The 32 bits of [z] read as a C [int], in two's complement. *)
Definition int_of_bits (z : Z) : Z :=
  let u := z mod 2 ^ 32 in
  if u <? 2 ^ 31 then u else u - 2 ^ 32.

(** ** The functions of <math.h> *)

Class Libm : Type := {
  exp : float → float;
  log : float → float;
  cos : float → float;
  sin : float → float
}.

(** ** Constants of [chain.c] *)

Definition MTMAX : Z := 0xFFFFFFFF.
Definition SEEDNO : Z := 4357.
Definition M_PI : float := 0x1.921fb54442d18p+1%float.
Definition muarcsecToRad : float := 4.8481368110954e-12%float.
(** The value that [like] returns for a penalized parameter vector and that
    [walkers] stores in [*postMax] before the first iteration. *)
Definition sentinel : float := (-1e34)%float.

(** ** The target distribution *)

Section Evaluator.
Context {M : Libm}.
Open Scope float_scope.

(** The real parts of the two Gaussian components and the imaginary part of
    the second, the locals [Vr1], [Vr2] and [Vi2] of [model] ([Vi1] is 0.0
    and is not used). *)
Definition model_parts (uCo vCo : float) (Nparam : Z) (Aparam : list float)
    : float * float * float :=
  let aux := 2.0 * M_PI * M_PI in
  let b02 := uCo * uCo + vCo * vCo in
  let b02 := b02 * (muarcsecToRad * muarcsecToRad) in
  let Vr1 := Aparam.[0] * exp ((- aux) * Aparam.[1] * Aparam.[1] * b02) in
  let V2 := Aparam.[4] * exp ((- aux) * Aparam.[5] * Aparam.[5] * b02) in
  let phase2 := (-2.0) * M_PI * (uCo * Aparam.[2] + vCo * Aparam.[3]) * muarcsecToRad in
  let Vr2 := V2 * cos phase2 in
  let Vi2 := V2 * sin phase2 in
  (Vr1, Vr2, Vi2).

(** "add together real and imaginary parts and take their modulus" *)
Definition model (uCo vCo : float) (Nparam : Z) (Aparam : list float) : float :=
  let '(Vr1, Vr2, Vi2) := model_parts uCo vCo Nparam Aparam in
  sqrt ((Vr1 + Vr2) * (Vr1 + Vr2) + Vi2 * Vi2).

Definition prior (Nparam : Z) (Aparam : list float) : float :=
  - log (Aparam.[0] * Aparam.[1] * Aparam.[4] * Aparam.[5]).

(** The test of the [if] that opens [like]. *)
Definition penalized (Aparam : list float) : bool :=
  (Aparam.[0] <? 0) || (Aparam.[1] <? 0) || (Aparam.[4] <? 0) || (Aparam.[5] <? 0).

(** One turn of the loop of [like] over the data points. *)
Definition chi2_body (Nparam : Z) (Aparam uCo vCo Vis Sigma : list float)
    (index : Z) (chi2 : float) : float :=
  let variance :=
    Vis.[(index - 1)%Z] - model uCo.[(index - 1)%Z] vCo.[(index - 1)%Z] Nparam Aparam in
  chi2 + variance * variance / (Sigma.[(index - 1)%Z] * Sigma.[(index - 1)%Z]).

Definition like (Nparam : Z) (Aparam : list float) (Npts : Z)
    (uCo vCo Vis Sigma : list float) : float :=
  if penalized Aparam then sentinel
  else
    let chi2 := for_upto 1 Npts (chi2_body Nparam Aparam uCo vCo Vis Sigma) 0 in
    - chi2.

Definition post (Nparam : Z) (Aparam : list float) (Npts : Z)
    (uCo vCo Vis Sigma : list float) : float :=
  prior Nparam Aparam + like Nparam Aparam Npts uCo vCo Vis Sigma.
End Evaluator.

(** ** The random series *)

(** Modelled from the spec: [randomMT], the Mersenne Twister behind
    [seedMT] and [reloadMT], is not part of [chain.c]; it is "a seeded
    pseudo-random generator producing uniform 32-bit unsigned integers".
    Its process-wide state is the explicit [MT].

    [chain.c] declares [seedMT] and [reloadMT] but not [randomMT]: a call
    [randomMT()] has the type [int] there, and the 32 bits of the draw are
    read as a signed number ([int_of_bits]); a draw of 2^31 or more is read
    as a negative number. *)
Class MTgen : Type := {
  MT : Type;
  seedMT : Z → MT;
  randomMT : MT → Z * MT
}.

Section Sampler.
Context {M : Libm} {G : MTgen}.
Open Scope float_scope.

(** [probpost >= bound] and [probpost > *postMax] of the source. *)
Definition geb (x y : float) : bool := y <=? x.
Definition gtb (x y : float) : bool := y <? x.

(** The expression [randomMT()/(MTMAX*1.0)+0.5], written three times in
    the source: an [int] divided by the double 4294967295.0, plus 0.5. *)
Definition draw01 (mt : MT) : float * MT :=
  let (d, mt') := randomMT mt in
  (double_of_int (int_of_bits d) / (double_of_uint32 MTMAX * 1.0) + 0.5, mt').

Definition gauss (sigma : float) (mt : MT) : float * MT :=
  let (y1, mt) := draw01 mt in
  let (y2, mt) := draw01 mt in
  (sigma * sqrt ((-2.0) * log y1) * cos (2.0 * M_PI * y2), mt).

(** [a[i] = x] and [chains[r][c] = x]. *)
Definition store (a : list float) (i : Z) (x : float) : list float :=
  <[Z.to_nat i := x]> a.
Definition store2 (chains : list (list float)) (r c : Z) (x : float)
    : list (list float) :=
  <[Z.to_nat r := store (chains !!! Z.to_nat r) c x]> chains.

(** The local variables of [walkers] that its loop reads or writes, the
    caller's [Aparam] and [*postMax], and the state of the generator. *)
Record walker : Type := {
  w_Aparam : list float;
  w_AparamPlusOne : list float;
  w_AparamMax : list float;
  w_accept : Z;
  w_probpre : float;
  w_postMax : float;
  w_chains : list (list float);
  w_mt : MT
}.

Section Loop.
Variables (Nparam : Z) (dev : list float) (Npts : Z)
          (uCo vCo Vis Sigma : list float).

(** "take a Gaussian step in each parameter" *)
Definition propose_body (Aparam : list float) (iparam : Z)
    (s : list float * MT) : list float * MT :=
  let (g, mt') := gauss dev.[(iparam - 1)%Z] s.2 in
  (store s.1 (iparam - 1) (Aparam.[(iparam - 1)%Z] + g), mt').
Definition propose (Aparam : list float) (s : list float * MT)
    : list float * MT :=
  for_upto 1 Nparam (propose_body Aparam) s.

(** [for (iparam...) dst[iparam-1]=src[iparam-1];] *)
Definition copy_params (src dst : list float) : list float :=
  for_upto 1 Nparam (λ iparam d, store d (iparam - 1) src.[(iparam - 1)%Z]) dst.

(** "record the chain" *)
Definition record_chain (ichain : Z) (Aparam : list float)
    (chains : list (list float)) : list (list float) :=
  for_upto 1 Nparam
    (λ index ch, store2 ch (ichain - 1) (index - 1) Aparam.[(index - 1)%Z]) chains.

(** The candidate of an iteration, its posterior, and the test of the
    [if] of the source, from the state at the start of the iteration. *)
Definition candidate (st : walker) : list float :=
  (propose (w_Aparam st) (w_AparamPlusOne st, w_mt st)).1.
Definition probpost_of (st : walker) : float :=
  post Nparam (candidate st) Npts uCo vCo Vis Sigma.
Definition probRandom_of (st : walker) : float :=
  (draw01 (propose (w_Aparam st) (w_AparamPlusOne st, w_mt st)).2).1.
Definition accepted (st : walker) : bool :=
  geb (probpost_of st) (w_probpre st + log (probRandom_of st)).
Definition new_max (st : walker) : bool :=
  accepted st && gtb (probpost_of st) (w_postMax st).

(** The body of the loop over [ichain]. *)
Definition walk_body (ichain : Z) (st : walker) : walker :=
  let (AparamPlusOne, mt) := propose (w_Aparam st) (w_AparamPlusOne st, w_mt st) in
  let probpost := post Nparam AparamPlusOne Npts uCo vCo Vis Sigma in
  let (probRandom, mt) := draw01 mt in
  let st :=
    {| w_Aparam := w_Aparam st; w_AparamPlusOne := AparamPlusOne;
       w_AparamMax := w_AparamMax st; w_accept := w_accept st;
       w_probpre := w_probpre st; w_postMax := w_postMax st;
       w_chains := w_chains st; w_mt := mt |} in
  let st :=
    if geb probpost (w_probpre st + log probRandom) then
      let Aparam := copy_params AparamPlusOne (w_Aparam st) in
      let accept := (w_accept st + 1)%Z in
      if gtb probpost (w_postMax st) then
        {| w_Aparam := Aparam; w_AparamPlusOne := AparamPlusOne;
           w_AparamMax := copy_params Aparam (w_AparamMax st);
           w_accept := accept; w_probpre := w_probpre st;
           w_postMax := probpost;
           w_chains := w_chains st; w_mt := mt |}
      else
        {| w_Aparam := Aparam; w_AparamPlusOne := AparamPlusOne;
           w_AparamMax := w_AparamMax st;
           w_accept := accept; w_probpre := w_probpre st;
           w_postMax := w_postMax st;
           w_chains := w_chains st; w_mt := mt |}
    else st in
  {| w_Aparam := w_Aparam st; w_AparamPlusOne := w_AparamPlusOne st;
     w_AparamMax := w_AparamMax st; w_accept := w_accept st;
     w_probpre := w_probpre st; w_postMax := w_postMax st;
     w_chains := record_chain ichain (w_Aparam st) (w_chains st);
     w_mt := w_mt st |}.

(** Storage that the source reads or overwrites without having
    initialized it holds indeterminate values: [junk] gives them, cell
    by cell.  [AparamPlusOne] and [AparamMax] are arrays of [Nparam]
    doubles, [chains] is a block of [Nchain] rows of [Nparam]. *)
Definition indeterminate (junk : nat → float) (base n : nat) : list float :=
  (λ i, junk (base + i)%nat) <$> seq 0 n.

(** The state when the loop over [ichain] is entered. *)
Definition walk_init (junk : nat → float) (rank Nchain : Z)
    (Aparam : list float) : walker :=
  let n := Z.to_nat Nparam in
  {| w_Aparam := Aparam;
     w_AparamPlusOne := indeterminate junk 0 n;
     w_AparamMax := indeterminate junk n n;
     w_accept := 0;
     w_probpre := post Nparam Aparam Npts uCo vCo Vis Sigma;
     w_postMax := sentinel;
     w_chains :=
       (λ r, indeterminate junk (2 * n + r * n) n) <$> seq 0 (Z.to_nat Nchain);
     w_mt := seedMT ((SEEDNO + rank) mod 2 ^ 32) |}.

(** The transition as the specification words it, to compare with
    [walk_body]: "On accept: current <- candidate, currentPosterior <-
    candidatePosterior".  It differs from the source in the posterior that
    the next test compares with. *)
Definition metropolis_body (ichain : Z) (st : walker) : walker :=
  let st' := walk_body ichain st in
  {| w_Aparam := w_Aparam st'; w_AparamPlusOne := w_AparamPlusOne st';
     w_AparamMax := w_AparamMax st'; w_accept := w_accept st';
     w_probpre := if accepted st then probpost_of st else w_probpre st;
     w_postMax := w_postMax st'; w_chains := w_chains st'; w_mt := w_mt st' |}.

(** The state after the first [k] iterations, and after all of them. *)
Definition walk_upto (k : nat) (st : walker) : walker :=
  for_loop k 1 walk_body st.
Definition walk (Nchain : Z) (st : walker) : walker :=
  for_upto 1 Nchain walk_body st.
End Loop.

(** What a run of [walkers] leaves: the value it returns, the caller's
    [Aparam] and [*postMax], the generator, and the rows that it writes to
    the chain file at its turn. *)
Record walkers_result : Type := {
  acceptance : float;
  Aparam_out : list float;
  postMax_out : float;
  chain_rows : list (list float);
  mt_out : MT
}.

Definition walkers_finish (Nparam Nchain : Z) (st : walker) : walkers_result :=
  {| acceptance := double_of_int (w_accept st) / (1.0 * double_of_int Nchain);
     Aparam_out := copy_params Nparam (w_AparamMax st) (w_Aparam st);
     postMax_out := w_postMax st;
     chain_rows := w_chains st;
     mt_out := w_mt st |}.

(** The locals of [walkers] after the first [k] iterations of its loop. *)
Definition walkers_after (junk : nat → float) (rank : Z)
    (Nchain Nparam : Z) (Aparam dev : list float) (Npts : Z)
    (uCo vCo Vis Sigma : list float) (k : nat) : walker :=
  walk_upto Nparam dev Npts uCo vCo Vis Sigma k
    (walk_init Nparam Npts uCo vCo Vis Sigma junk rank Nchain Aparam).

(** [walkers] from the statement that follows the allocation of [chains]:
    what a run gives in which [malloc] has succeeded. *)
Definition walkers (junk : nat → float) (rank : Z)
    (Nchain Nparam : Z) (Aparam dev : list float) (Npts : Z)
    (uCo vCo Vis Sigma : list float) : walkers_result :=
  walkers_finish Nparam Nchain
    (walk Nparam dev Npts uCo vCo Vis Sigma Nchain
       (walk_init Nparam Npts uCo vCo Vis Sigma junk rank Nchain Aparam)).



End Sampler.

(** ** A reference environment

    To run the sampler on concrete inputs: an instance of [Libm] computed in
    binary64 with the special values that C99 (Annex F) fixes, and a
    generator that replays a given series of draws.  The instance stands
    for a libm on the arguments of the runs below only: [ref_cos] and
    [ref_sin] do not reduce arguments of magnitude 2^50 or more, which no
    run below reaches. *)

Module Reference.
Open Scope float_scope.

Definition ln2 : float := 0x1.62e42fefa39efp-1.
Definition half_pi : float := 0x1.921fb54442d18p+0.

(** Nearest integer of a double of magnitude below 2^51. *)
Definition rint (x : float) : float := (x + 0x1.8p52) - 0x1.8p52.

(** The integer that an integer-valued double holds. *)
Definition Z_of_double (x : float) : Z :=
  let (m, e) := Z.frexp (abs x) in
  let n := Z.shiftr (Uint63.to_Z (normfr_mantissa m)) (53 - e) in
  if x <? 0 then (- n)%Z else n.

Fixpoint exp_series (n : nat) (k term r acc : float) : float :=
  match n with
  | O => acc
  | S n' =>
      let term' := term * r / k in
      exp_series n' (k + 1) term' r (acc + term')
  end.

Definition ref_exp (x : float) : float :=
  if is_nan x then nan
  else if 710 <? x then infinity
  else if x <? -746 then 0
  else
    let k := rint (x / ln2) in
    let r := x - k * ln2 in
    Z.ldexp (exp_series 22 1 1 r 1) (Z_of_double k).

Fixpoint atanh_series (n : nat) (k pow t2 acc : float) : float :=
  match n with
  | O => acc
  | S n' =>
      let pow' := pow * t2 in
      atanh_series n' (k + 2) pow' t2 (acc + pow' / k)
  end.

Definition ref_log (x : float) : float :=
  if is_nan x then nan
  else if x <? 0 then nan
  else if x =? 0 then neg_infinity
  else if x =? infinity then infinity
  else
    let (m, e) := Z.frexp x in
    let (m, e) := if m <? 0x1.6a09e667f3bcdp-1 then (2 * m, (e - 1)%Z) else (m, e) in
    let t := (m - 1) / (m + 1) in
    double_of_int e * ln2 + 2 * atanh_series 20 3 t (t * t) t.

Fixpoint trig_series (n : nat) (k term r2 acc : float) : float :=
  match n with
  | O => acc
  | S n' =>
      let term' := - (term * r2 / (k * (k + 1))) in
      trig_series n' (k + 2) term' r2 (acc + term')
  end.

Definition sin_small (r : float) : float := trig_series 12 2 r (r * r) r.
Definition cos_small (r : float) : float := trig_series 12 1 1 (r * r) 1.

(** [x = r + k * (pi/2)]; the second component is [k] modulo 4, between -2
    and 2.  Arguments from 2^50 on are not reduced. *)
Definition reduce (x : float) : float * float :=
  if 0x1p50 <=? abs x then (0, 0)
  else
    let k := rint (x / half_pi) in
    let r := x - k * half_pi in
    (r, k - 4 * rint (k * 0.25)).

Definition ref_cos (x : float) : float :=
  if is_nan x || is_infinity x then nan
  else
    let (r, q) := reduce x in
    if q =? 0 then cos_small r
    else if q =? 1 then - sin_small r
    else if q =? -1 then sin_small r
    else - cos_small r.

Definition ref_sin (x : float) : float :=
  if is_nan x || is_infinity x then nan
  else if x =? 0 then x
  else
    let (r, q) := reduce x in
    if q =? 0 then sin_small r
    else if q =? 1 then cos_small r
    else if q =? -1 then - cos_small r
    else - sin_small r.

Definition libm : Libm :=
  {| exp := ref_exp; log := ref_log; cos := ref_cos; sin := ref_sin |}.

(** A generator that replays [draws], then gives 0; seeding rewinds it. *)
Definition scripted (draws : list Z) : MTgen :=
  {| MT := list Z;
     seedMT := λ _, draws;
     randomMT := λ mt, match mt with [] => (0%Z, []) | d :: mt' => (d, mt') end |}.

(** The initial parameter vector and the step deviations of [main], and the
    single data point of the end-to-end scenario of the specification. *)
Definition Aparam0 : list float := [4.5; 4.8; -11.5; 13.6; 1.4; 3.1].
Definition dev0 : list float := (λ x, 0.01 * x) <$> Aparam0.
Definition uCo1 : list float := [0].
Definition vCo1 : list float := [0].
Definition Vis1 : list float := [5.9].
Definition Sigma1 : list float := [0.1].

(** Parameter vectors at the edge of the guard of [like]: a negative flux,
    a negative flux and a negative width, a flux that is exactly zero, and a
    finite width whose square overflows. *)
Definition Aparam_negative_flux : list float := [-4.5; 4.8; -11.5; 13.6; 1.4; 3.1].
Definition Aparam_two_negative : list float := [-4.5; -4.8; -11.5; 13.6; 1.4; 3.1].
Definition Aparam_zero_flux : list float := [0; 4.8; -11.5; 13.6; 1.4; 3.1].
Definition Aparam_wide : list float := [4.5; 1e200; -11.5; 13.6; 1.4; 3.1].

(** Pairs of draws for one call of [gauss]: a step of about 1e-5 [sigma],
    a step of -1.18 [sigma], a step of +1.18 [sigma]. *)
Definition tiny : list Z := [2147483647; 0]%Z.
Definition down : list Z := [0; 0]%Z.
Definition up : list Z := [0; 2147483648]%Z.

(** The draws of two iterations: the first narrows the two widths and draws
    0.5 for the test; the second widens them again and draws 0.99. *)
Definition draws_two_steps : list Z :=
  (tiny ++ down ++ tiny ++ tiny ++ tiny ++ down ++ [0]
   ++ tiny ++ up ++ tiny ++ tiny ++ tiny ++ up ++ [2104533974])%Z.

(** Uninitialized storage that happens to hold 7.0 everywhere. *)
Definition sevens : nat → float := λ _, 7.
End Reference.

(** ** The rank-ordered chain writer

    The last part of [walkers] (lines 406-425): every process runs the loop
    [for (r = 0; r < sz; r++)], writes its chain at the turn [r == rank] and
    calls [MPI_Barrier] at the end of every turn.  The processes are the
    cells of a list, indexed by rank; they share the chain file, a list of
    rows.  A process is at one of these places: *)
Inductive place : Type :=
  | Sampling              (** before the loop: seeding, sampling *)
  | Turn (r : nat)        (** at the test [r < sz] of the loop *)
  | Writing (r k : nat)   (** the file is open, [k] rows are written *)
  | AtBarrier (r : nat)   (** in the [MPI_Barrier] of turn [r] *)
  | Finished (r : nat).   (** after the loop, which [r] has left *)

Record world : Type := {
  procs : list place;
  file : list (list float);
  aborted : bool
}.

(** The calls of [MPI_Barrier] that a process has entered and has left. *)
Definition barriers_entered (c : place) : nat :=
  match c with
  | Sampling => 0
  | Turn r | Writing r _ | Finished r => r
  | AtBarrier r => S r
  end.

Definition barriers_left (c : place) : nat :=
  match c with
  | Sampling => 0
  | Turn r | Writing r _ | AtBarrier r | Finished r => r
  end.

(** [MPI_Barrier] returns in a process once every process of the
    communicator has entered the same call: the call number [r] (from 0)
    can be left when all have entered more than [r] calls. *)
Definition all_entered (r : nat) (ps : list place) : bool :=
  forallb (λ c, r <? barriers_entered c)%nat ps.

Definition move (p : nat) (c : place) (w : world) : world :=
  {| procs := <[p := c]> (procs w); file := file w; aborted := aborted w |}.

(** One step of the process of rank [p]; [None] when it cannot move (it
    waits in the barrier, it has finished, or the run is aborted).
    [blocks !!! p] is its chain record, [fopen_ok] tells whether an [fopen]
    that it calls succeeds.  [fopen] with "w" empties the file; a row is
    written at the end of the file. *)
Definition proc_step (blocks : list (list (list float))) (p : nat) (fopen_ok : bool)
    (w : world) : option world :=
  if aborted w then None
  else
    match procs w !! p with
    | None => None
    | Some Sampling => Some (move p (Turn 0) w)
    | Some (Turn r) =>
        if (length (procs w) <=? r)%nat then Some (move p (Finished r) w)
        else if (r =? p)%nat then
          if fopen_ok then
            Some {| procs := <[p := Writing r 0]> (procs w);
                    file := if (p =? 0)%nat then [] else file w;
                    aborted := false |}
          else Some {| procs := procs w; file := file w; aborted := true |}
        else Some (move p (AtBarrier r) w)
    | Some (Writing r k) =>
        match (blocks !!! p) !! k with
        | Some row =>
            Some {| procs := <[p := Writing r (S k)]> (procs w);
                    file := file w ++ [row];
                    aborted := false |}
        | None => Some (move p (AtBarrier r) w)
        end
    | Some (AtBarrier r) =>
        if all_entered r (procs w) then Some (move p (Turn (S r)) w) else None
    | Some (Finished _) => None
    end.

(** A step of the parallel run: some process moves. *)
Definition world_step (blocks : list (list (list float))) (w w' : world) : Prop :=
  ∃ p fopen_ok, proc_step blocks p fopen_ok w = Some w'.

(** The run starts with every process sampling and the file as it was left
    by earlier runs. *)
Definition world_init (sz : nat) (old : list (list float)) : world :=
  {| procs := replicate sz Sampling; file := old; aborted := false |}.

(** The run under a schedule: the ranks in the order in which they get to
    move, each with the outcome of an [fopen]; a process that cannot move
    when it is scheduled stays where it is. *)
Fixpoint run_schedule (blocks : list (list (list float))) (sched : list (nat * bool))
    (w : world) : world :=
  match sched with
  | [] => w
  | (p, ok) :: sched' =>
      match proc_step blocks p ok w with
      | Some w' => run_schedule blocks sched' w'
      | None => run_schedule blocks sched' w
      end
  end.

(** The number of steps of that run: the scheduled moves that can be made. *)
Fixpoint moves (blocks : list (list (list float))) (sched : list (nat * bool))
    (w : world) : nat :=
  match sched with
  | [] => 0
  | (p, ok) :: sched' =>
      match proc_step blocks p ok w with
      | Some w' => S (moves blocks sched' w')
      | None => moves blocks sched' w
      end
  end.

(** What the process of rank [p] at place [c] has put into the file. *)
Definition written (blocks : list (list (list float))) (p : nat) (c : place)
    : list (list float) :=
  match c with
  | Writing _ k => take k (blocks !!! p)
  | _ => if (p <? barriers_entered c)%nat then blocks !!! p else []
  end.

(** Whether rank 0 has opened, and so emptied, the file. *)
Definition emptied (ps : list place) : bool :=
  match ps !! 0%nat with
  | Some (Writing _ _) => true
  | Some c => (0 <? barriers_entered c)%nat
  | None => false
  end.

(** The steps that a process at place [c] still takes when no [fopen]
    fails, and the steps left in a world. *)
Definition steps_from_turn (blocks : list (list (list float))) (sz p r : nat) : nat :=
  ((sz - r) * 2 + (if (r <=? p)%nat && (p <? sz)%nat then length (blocks !!! p) + 1 else 0) + 1)%nat.

Definition steps_left (blocks : list (list (list float))) (sz p : nat) (c : place) : nat :=
  match c with
  | Sampling => S (steps_from_turn blocks sz p 0)
  | Turn r => steps_from_turn blocks sz p r
  | Writing r k => (length (blocks !!! p) - k) + 2 + steps_from_turn blocks sz p (S r)
  | AtBarrier r => S (steps_from_turn blocks sz p (S r))
  | Finished _ => 0
  end%nat.

Definition world_measure (blocks : list (list (list float))) (w : world) : nat :=
  if aborted w then 0%nat
  else S (sum_list (imap (steps_left blocks (length (procs w))) (procs w))).

(** What a reachable world keeps: the places fit the loop, no process has
    left a barrier that another has not entered, and the file holds what
    the processes have written, in rank order.  [old] is the content of the
    file at the start. *)
Definition place_fits (blocks : list (list (list float))) (p : nat) (c : place) : Prop :=
  match c with
  | Sampling => True
  | Turn r => (r ≤ length blocks)%nat
  | Writing r k => r = p ∧ (k ≤ length (blocks !!! p))%nat
  | AtBarrier r => (r < length blocks)%nat
  | Finished r => r = length blocks
  end.

Record world_inv (blocks : list (list (list float))) (old : list (list float))
    (w : world) : Prop := {
  inv_size : length (procs w) = length blocks;
  inv_fits : ∀ p c, procs w !! p = Some c → place_fits blocks p c;
  inv_sync : ∀ p q cp cq, procs w !! p = Some cp → procs w !! q = Some cq →
             (barriers_left cp ≤ barriers_entered cq)%nat;
  inv_file : file w = (if emptied (procs w) then [] else old)
                      ++ concat (imap (written blocks) (procs w))
}.
Arguments inv_size {blocks old} w _.
Arguments inv_fits {blocks old} w _ p c _.
Arguments inv_sync {blocks old} w _ p q cp cq _ _.
Arguments inv_file {blocks old} w _.

(** Two chains of two rows, a file left by an earlier run, and a schedule
    in which rank 1 is ahead of rank 0. *)
Definition example_blocks : list (list (list float)) :=
  [[[1; 2]; [3; 4]]; [[5; 6]; [7; 8]]]%float.
Definition example_old : list (list float) := [[9; 9]]%float.
Definition example_schedule : list (nat * bool) :=
  replicate 6 (1%nat, true) ++ mjoin (replicate 20 [(0%nat, true); (1%nat, true)]).
(** The start of a run in which rank 1 has written one row. *)
Definition example_schedule_mid : list (nat * bool) :=
  replicate 2 (1%nat, true) ++ replicate 7 (0%nat, true) ++ replicate 3 (1%nat, true).

(** ** Reading the data ([readdata.c])

    Modelled: [fscanf] of the C library on the text of the data file.  The
    text is the sequence of its input items, with white space between them
    or not, line ends included.  An item is
    - [Num x], a number that the conversion [%e] accepts, given by the
      value [x] that it stores in a [float] variable;
    - [Part], characters that begin a number and are not one, a sign with
      no digit behind it for instance: [%e] takes them from the file and
      fails;
    - [Junk], a character that cannot begin a number: [%e] leaves it in
      the file and fails.
    [fscanf (data_file, "%e %e %e %e", ...)] converts the leading numbers,
    four at most, and stops at the first item that is not a number; it
    returns how many it has converted, or [EOF] when the text ends before
    the first conversion.  [readData] only tests whether that is
    positive. *)
Inductive field : Type :=
  | Num (x : float)
  | Part
  | Junk.

Definition EOF : Z := -1.
Definition ERROR_FILE : Z := 1.

Fixpoint scan (k : nat) (fs : list field) : list float * list field :=
  match k, fs with
  | S k', Num x :: fs' => let (xs, rest) := scan k' fs' in (x :: xs, rest)
  | S _, Part :: fs' => ([], fs')
  | _, _ => ([], fs)
  end.

Definition fscanf4 (fs : list field) : Z * list float * list field :=
  match fs with
  | [] => (EOF, [], [])
  | _ => let (xs, rest) := scan 4 fs in (Z.of_nat (length xs), xs, rest)
  end.

(** The variables of [readData]: [*Npts], the four arrays of the caller,
    the locals [read1] to [read4], what is left of the file, and whether a
    store has fallen outside an array ([readData] does not check [*Npts]
    against the sizes of the arrays; such a store is undefined in C, the
    model drops it, as [store] does, and records it). *)
Record reader : Type := {
  r_Npts : Z;
  r_U : list float;
  r_V : list float;
  r_Vis : list float;
  r_Sigma : list float;
  r_read1 : float;
  r_read2 : float;
  r_read3 : float;
  r_read4 : float;
  r_file : list field;
  r_overrun : bool
}.

Definition in_array (a : list float) (i : Z) : bool :=
  (0 <=? i) && (i <? Z.of_nat (length a)).

(** The body of the [do ... while (result>0)] loop, with [result]. *)
Definition read_body (st : reader) : Z * reader :=
  let '(result, xs, rest) := fscanf4 (r_file st) in
  let read1 := nth 0 xs (r_read1 st) in
  let read2 := nth 1 xs (r_read2 st) in
  let read3 := nth 2 xs (r_read3 st) in
  let read4 := nth 3 xs (r_read4 st) in
  if 0 <? result then
    (result,
     {| r_Npts := r_Npts st + 1;
        r_U := store (r_U st) (r_Npts st) read1;
        r_V := store (r_V st) (r_Npts st) read2;
        r_Vis := store (r_Vis st) (r_Npts st) read3;
        r_Sigma := store (r_Sigma st) (r_Npts st) read4;
        r_read1 := read1; r_read2 := read2; r_read3 := read3; r_read4 := read4;
        r_file := rest;
        r_overrun :=
          r_overrun st
          || negb (in_array (r_U st) (r_Npts st) && in_array (r_V st) (r_Npts st)
                   && in_array (r_Vis st) (r_Npts st) && in_array (r_Sigma st) (r_Npts st)) |})
  else
    (result,
     {| r_Npts := r_Npts st;
        r_U := r_U st; r_V := r_V st; r_Vis := r_Vis st; r_Sigma := r_Sigma st;
        r_read1 := read1; r_read2 := read2; r_read3 := read3; r_read4 := read4;
        r_file := rest;
        r_overrun := r_overrun st |}).

(** The loop; every turn but the last takes at least one field from the
    file, so that one turn more than the file has fields is enough. *)
Fixpoint read_loop (fuel : nat) (st : reader) : reader :=
  match fuel with
  | O => st
  | S fuel' =>
      let (result, st') := read_body st in
      if 0 <? result then read_loop fuel' st' else st'
  end.

(** The variables when the loop starts: the file is open and [*Npts] is 0;
    the arrays are those of the caller and the locals are as they were. *)
Definition reader_start (fs : list field) (st : reader) : reader :=
  {| r_Npts := 0;
     r_U := r_U st; r_V := r_V st; r_Vis := r_Vis st; r_Sigma := r_Sigma st;
     r_read1 := r_read1 st; r_read2 := r_read2 st;
     r_read3 := r_read3 st; r_read4 := r_read4 st;
     r_file := fs;
     r_overrun := false |}.

(** [readData]: its return value and the variables at its end.  [fopen_ok]
    and [fclose_ok] tell whether [fopen] and [fclose] succeed, [fs] is the
    text of the file, [st] holds the arrays and [*Npts] of the caller and the
    indeterminate initial values of the locals. *)
Definition readData (fopen_ok fclose_ok : bool) (fs : list field) (st : reader)
    : Z * reader :=
  if fopen_ok then
    let st' := read_loop (S (length fs)) (reader_start fs st) in
    if fclose_ok then (0, st') else (ERROR_FILE, st')
  else (ERROR_FILE, st).

(** A data point, and the text of a file of complete rows. *)
Record point : Type := { p_u : float; p_v : float; p_vis : float; p_sigma : float }.

Definition row_fields (pt : point) : list field :=
  [Num (p_u pt); Num (p_v pt); Num (p_vis pt); Num (p_sigma pt)].

Definition rows_fields (pts : list point) : list field := pts ≫= row_fields.

(** The variables after a complete row has been read and stored. *)
Definition absorb (st : reader) (pt : point) : reader :=
  {| r_Npts := r_Npts st + 1;
     r_U := store (r_U st) (r_Npts st) (p_u pt);
     r_V := store (r_V st) (r_Npts st) (p_v pt);
     r_Vis := store (r_Vis st) (r_Npts st) (p_vis pt);
     r_Sigma := store (r_Sigma st) (r_Npts st) (p_sigma pt);
     r_read1 := p_u pt; r_read2 := p_v pt; r_read3 := p_vis pt; r_read4 := p_sigma pt;
     r_file := drop 4 (r_file st);
     r_overrun :=
       r_overrun st
       || negb (in_array (r_U st) (r_Npts st) && in_array (r_V st) (r_Npts st)
                && in_array (r_Vis st) (r_Npts st) && in_array (r_Sigma st) (r_Npts st)) |}.

(** The variables after a call of [fscanf] that has converted the numbers
    [xs], three at most, and left [rest] of the file: the locals that have
    no number keep their values, and a point is stored all the same. *)
Definition absorb_short (st : reader) (xs : list float) (rest : list field) : reader :=
  {| r_Npts := r_Npts st + 1;
     r_U := store (r_U st) (r_Npts st) (nth 0 xs (r_read1 st));
     r_V := store (r_V st) (r_Npts st) (nth 1 xs (r_read2 st));
     r_Vis := store (r_Vis st) (r_Npts st) (nth 2 xs (r_read3 st));
     r_Sigma := store (r_Sigma st) (r_Npts st) (nth 3 xs (r_read4 st));
     r_read1 := nth 0 xs (r_read1 st); r_read2 := nth 1 xs (r_read2 st);
     r_read3 := nth 2 xs (r_read3 st); r_read4 := nth 3 xs (r_read4 st);
     r_file := rest;
     r_overrun :=
       r_overrun st
       || negb (in_array (r_U st) (r_Npts st) && in_array (r_V st) (r_Npts st)
                && in_array (r_Vis st) (r_Npts st) && in_array (r_Sigma st) (r_Npts st)) |}.

(** The locals [read1] to [read4] as a point. *)
Definition reads (st : reader) : point :=
  {| p_u := r_read1 st; p_v := r_read2 st; p_vis := r_read3 st; p_sigma := r_read4 st |}.

(** The file ends, or goes on with text that is not a number. *)
Definition no_number_ahead (fs : list field) : Prop :=
  fs = [] ∨ (∃ fs', fs = Part :: fs') ∨ (∃ fs', fs = Junk :: fs').

(** The file ends, or goes on with a character that cannot begin a number:
    no call of [fscanf] gets further. *)
Definition reading_stops (fs : list field) : Prop :=
  fs = [] ∨ ∃ fs', fs = Junk :: fs'.

(** What is left of the file when a conversion has failed at its head. *)
Definition after_failure (fs : list field) : list field :=
  match fs with
  | Part :: fs' => fs'
  | _ => fs
  end.

(** Two complete rows, and the variables of a caller whose arrays have
    three cells. *)
Definition example_points : list point :=
  [{| p_u := 1; p_v := 2; p_vis := 3; p_sigma := 4 |};
   {| p_u := 5; p_v := 6; p_vis := 7; p_sigma := 8 |}]%float.
Definition example_reader : reader :=
  {| r_Npts := 7;
     r_U := [0; 0; 0]%float; r_V := [0; 0; 0]%float;
     r_Vis := [0; 0; 0]%float; r_Sigma := [0; 0; 0]%float;
     r_read1 := 9; r_read2 := 9; r_read3 := 9; r_read4 := 9;
     r_file := [];
     r_overrun := false |}.
(** The same caller with arrays of five cells. *)
Definition example_wide_reader : reader :=
  {| r_Npts := 7;
     r_U := [0; 0; 0; 0; 0]%float; r_V := [0; 0; 0; 0; 0]%float;
     r_Vis := [0; 0; 0; 0; 0]%float; r_Sigma := [0; 0; 0; 0; 0]%float;
     r_read1 := 9; r_read2 := 9; r_read3 := 9; r_read4 := 9;
     r_file := [];
     r_overrun := false |}.

(** ** Further definitions for the properties below *)

(** 1.0 as a binary64 number. *)
Definition SFone : spec_float := S754_finite false 4503599627370496 (-52).

(** The generator after [k] more draws. *)
Definition skip_draws {G : MTgen} (k : nat) (mt : MT) : MT :=
  Nat.iter k (λ m, (randomMT m).2) mt.

(** * Properties *)

(** ** Order and NaN of binary64 *)

Section FloatFacts.
Open Scope float_scope.

Lemma SFcompare_refl f : f ≠ S754_nan → SFcompare f f = Some Eq.
Proof.
  destruct f as [[]|[]| |[] m e]; simpl; try congruence;
    intros _; rewrite Z.compare_refl, Pos.compare_cont_refl; reflexivity.
Qed.

Lemma SFcompare_nan_r f : SFcompare f S754_nan = None.
Proof. by destruct f as [| | |[]]. Qed.

Lemma Prim2SF_nan x : Prim2SF x = S754_nan ↔ x = nan.
Proof.
  split; [intros H; apply Prim2SF_inj; rewrite H; reflexivity | intros ->; reflexivity].
Qed.

Lemma is_nan_true x : is_nan x = true ↔ x = nan.
Proof.
  unfold is_nan. rewrite FloatAxioms.eqb_spec. unfold SFeqb.
  destruct (Prim2SF x) eqn:E.
  1,2,4: rewrite SFcompare_refl by discriminate; simpl;
    split; [discriminate | intros ->; discriminate].
  apply Prim2SF_nan in E. by split.
Qed.

Lemma is_nan_false x : is_nan x = false ↔ x ≠ nan.
Proof. rewrite <- is_nan_true. destruct (is_nan x); split; congruence. Qed.

Lemma ltb_leb x y : (x <? y) = true → (x <=? y) = true.
Proof.
  rewrite ltb_spec, leb_spec. unfold SFltb, SFleb.
  destruct (SFcompare _ _) as [[]|]; congruence.
Qed.

Lemma leb_refl x : x ≠ nan → (x <=? x) = true.
Proof.
  intros H. rewrite leb_spec. unfold SFleb.
  rewrite SFcompare_refl; [reflexivity | by rewrite Prim2SF_nan].
Qed.

Lemma ltb_not_nan x y : (x <? y) = true → x ≠ nan ∧ y ≠ nan.
Proof.
  rewrite ltb_spec. unfold SFltb. intros H. split; intros ->; revert H;
    change (Prim2SF nan) with S754_nan; [done | by rewrite SFcompare_nan_r].
Qed.

Lemma leb_not_nan x y : (x <=? y) = true → x ≠ nan ∧ y ≠ nan.
Proof.
  rewrite leb_spec. unfold SFleb. intros H. split; intros ->; revert H;
    change (Prim2SF nan) with S754_nan; [done | by rewrite SFcompare_nan_r].
Qed.

Lemma SFleb_trans f g h : SFleb f g = true → SFleb g h = true → SFleb f h = true.
Proof.
  unfold SFleb.
  destruct f as [[]|[]| |[] m1 e1], g as [[]|[]| |[] m2 e2], h as [[]|[]| |[] m3 e3];
    simpl; try done;
    change (Pos.compare_cont Eq) with Pos.compare;
    destruct (Z.compare_spec e1 e2), (Z.compare_spec e2 e3), (Z.compare_spec e1 e3);
    try done; try lia;
    destruct (Pos.compare_spec m1 m2), (Pos.compare_spec m2 m3), (Pos.compare_spec m1 m3);
    simpl; try done; try lia.
Qed.

Lemma leb_trans x y z : (x <=? y) = true → (y <=? z) = true → (x <=? z) = true.
Proof. rewrite !leb_spec. apply SFleb_trans. Qed.

Lemma SFcompare_swap f g : SFcompare g f = CompOpp <$> SFcompare f g.
Proof.
  destruct f as [[]|[]| |[] m1 e1], g as [[]|[]| |[] m2 e2]; simpl; try done;
    rewrite (Z.compare_antisym e1 e2); destruct (e1 ?= e2)%Z; simpl; try done;
    by rewrite (Pos.compare_cont_antisym m1 m2 Eq).
Qed.

(** Two doubles that are not NaN are comparable. *)
Lemma leb_total x y : x ≠ nan → y ≠ nan → (x <? y) = false → (y <=? x) = true.
Proof.
  rewrite <- !Prim2SF_nan, ltb_spec, leb_spec. unfold SFltb, SFleb.
  rewrite (SFcompare_swap (Prim2SF x) (Prim2SF y)).
  destruct (Prim2SF x) as [| | |] eqn:Ex, (Prim2SF y) as [| | |] eqn:Ey; try done;
    intros _ _; destruct (SFcompare _ _) as [[]|] eqn:E; simpl; try done;
    destruct s, s0; discriminate.
Qed.

(** A double that is zero or positive is not below zero. *)
Lemma nonneg_not_negative x : (0 <=? x) = true → (x <? 0) = false.
Proof.
  rewrite leb_spec, ltb_spec. unfold SFleb, SFltb.
  change (Prim2SF 0) with (S754_zero false).
  by destruct (Prim2SF x) as [| [] | | [] ? ?].
Qed.
End FloatFacts.

(** ** Signs of the IEEE operations *)

Section Signs.
Open Scope float_scope.

(** The double is NaN or carries the sign "plus". *)
Definition SFplus (f : spec_float) : Prop :=
  match f with
  | S754_nan => True
  | S754_zero s | S754_infinity s | S754_finite s _ _ => s = false
  end.

Lemma shr_1_nonneg mrs : (0 ≤ shr_m mrs)%Z → (0 ≤ shr_m (shr_1 mrs))%Z.
Proof. destruct mrs as [[|[]|[]] r s]; simpl; lia. Qed.

Lemma iter_shr_1_nonneg p mrs :
  (0 ≤ shr_m mrs)%Z → (0 ≤ shr_m (SpecFloat.iter_pos shr_1 p mrs))%Z.
Proof.
  revert mrs. induction p as [p IH|p IH|]; intros mrs H; simpl.
  - apply IH, IH, shr_1_nonneg, H.
  - apply IH, IH, H.
  - apply shr_1_nonneg, H.
Qed.

Lemma shr_fexp_nonneg m e l :
  (0 ≤ m)%Z → (0 ≤ shr_m (shr_fexp prec emax m e l).1)%Z.
Proof.
  intros H. unfold shr_fexp, shr.
  assert (0 ≤ shr_m (shr_record_of_loc m l))%Z by (by destruct l as [|[]]).
  destruct (_ - e)%Z; simpl; try done. by apply iter_shr_1_nonneg.
Qed.

Lemma round_nearest_even_nonneg m l : (0 ≤ m)%Z → (0 ≤ round_nearest_even m l)%Z.
Proof. intros H. destruct l as [|[]]; simpl; try done; try lia. destruct (Z.even m); lia. Qed.

Lemma binary_round_aux_plus m e l : SFplus (binary_round_aux prec emax false m e l).
Proof.
  unfold binary_round_aux.
  destruct (shr_fexp prec emax m e l) as [mrs' e'].
  destruct (shr_fexp prec emax _ e' loc_Exact) as [mrs'' e''].
  destruct (shr_m mrs''); simpl; try done. by destruct (_ <=? _)%Z.
Qed.

Lemma binary_round_aux_not_nan s m e l :
  (0 ≤ m)%Z → binary_round_aux prec emax s m e l ≠ S754_nan.
Proof.
  intros H. unfold binary_round_aux.
  pose proof (shr_fexp_nonneg m e l H) as H1.
  destruct (shr_fexp prec emax m e l) as [mrs' e']. simpl in H1.
  pose proof (shr_fexp_nonneg _ e' loc_Exact
                (round_nearest_even_nonneg _ (loc_of_shr_record mrs') H1)) as H2.
  destruct (shr_fexp prec emax _ e' loc_Exact) as [mrs'' e'']. simpl in H2.
  destruct (shr_m mrs''); try done; try lia. by destruct (_ <=? _)%Z.
Qed.

Lemma binary_round_plus m e : SFplus (binary_round prec emax false m e).
Proof.
  unfold binary_round. destruct (shl_align _ _ _). apply binary_round_aux_plus.
Qed.

Lemma binary_round_not_nan s m e : binary_round prec emax s m e ≠ S754_nan.
Proof.
  unfold binary_round. destruct (shl_align _ _ _). by apply binary_round_aux_not_nan.
Qed.

Lemma SFmul_self_plus f : SFplus (SF64mul f f).
Proof.
  destruct f as [s|s| |s m e]; simpl; try done; try apply xorb_nilpotent.
  rewrite xorb_nilpotent. apply binary_round_aux_plus.
Qed.

Lemma SFmul_self_not_nan f : f ≠ S754_nan → SF64mul f f ≠ S754_nan.
Proof.
  destruct f as [s|s| |s m e]; simpl; try done. intros _.
  by apply binary_round_aux_not_nan.
Qed.

Lemma SFadd_plus f g : SFplus f → SFplus g → SFplus (SF64add f g).
Proof.
  destruct f as [s|s| |s m e], g as [s'|s'| |s' m' e']; simpl; try done;
    intros -> ->; try done.
  apply binary_round_plus.
Qed.

Lemma SFadd_plus_not_nan f g :
  SFplus f → SFplus g → f ≠ S754_nan → g ≠ S754_nan → SF64add f g ≠ S754_nan.
Proof.
  destruct f as [s|s| |s m e], g as [s'|s'| |s' m' e']; simpl; try done;
    intros -> -> _ _; try done.
  apply binary_round_not_nan.
Qed.

Lemma SFsqrt_plus f : SFplus f → SFplus (SF64sqrt f).
Proof.
  destruct f as [s|s| |s m e]; simpl; try done; intros ->; try done.
  unfold SF64sqrt, SFsqrt. destruct (SFsqrt_core_binary _ _ _ _) as [[mz ez] lz].
  apply binary_round_aux_plus.
Qed.

Lemma SFsqrt_plus_not_nan f : SFplus f → f ≠ S754_nan → SF64sqrt f ≠ S754_nan.
Proof.
  destruct f as [s|s| |s m e]; simpl; try done; intros -> _; try done.
  unfold SF64sqrt, SFsqrt, SFsqrt_core_binary.
  set (m' := match _ with Z0 => _ | Zpos _ => _ | Zneg _ => _ end).
  pose proof (Z.sqrtrem_spec m') as Hs.
  destruct (Z.sqrtrem m') as [q r].
  apply binary_round_aux_not_nan.
  assert (0 ≤ m')%Z as Hm.
  { subst m'. destruct (_ - _)%Z; try done. apply Z.shiftl_nonneg. done. }
  specialize (Hs Hm). simpl in Hs. nia.
Qed.

Lemma SFplus_leb f : SFplus f → f ≠ S754_nan → SFleb (S754_zero false) f = true.
Proof. by destruct f as [s|s| |s m e]; simpl; try done; intros ->. Qed.

(** The modulus [sqrt (a*a + b*b)] is NaN or at least zero, and it is NaN
    only if [a] or [b] is. *)
Lemma modulus_nan_or_nonneg a b :
  sqrt (a * a + b * b) = nan ∨ (0 <=? sqrt (a * a + b * b)) = true.
Proof.
  destruct (is_nan (sqrt (a * a + b * b))) eqn:E;
    [left; by apply is_nan_true | right; apply is_nan_false in E].
  rewrite leb_spec. change (Prim2SF 0) with (S754_zero false).
  apply SFplus_leb; [|by rewrite Prim2SF_nan].
  rewrite sqrt_spec, add_spec, !mul_spec.
  apply SFsqrt_plus, SFadd_plus; apply SFmul_self_plus.
Qed.

Lemma modulus_nonneg a b :
  a ≠ nan → b ≠ nan → (0 <=? sqrt (a * a + b * b)) = true.
Proof.
  intros Ha Hb. rewrite <- Prim2SF_nan in Ha, Hb.
  rewrite leb_spec. change (Prim2SF 0) with (S754_zero false).
  rewrite sqrt_spec, add_spec, !mul_spec.
  apply SFplus_leb.
  - apply SFsqrt_plus, SFadd_plus; apply SFmul_self_plus.
  - apply SFsqrt_plus_not_nan.
    + apply SFadd_plus; apply SFmul_self_plus.
    + apply SFadd_plus_not_nan; auto using SFmul_self_plus, SFmul_self_not_nan.
Qed.
End Signs.

(** ** The target distribution *)

Section EvaluatorFacts.
Context {M : Libm}.
Open Scope float_scope.

Lemma penalized_true Aparam :
  penalized Aparam = true ↔
  (Aparam.[0] <? 0) = true ∨ (Aparam.[1] <? 0) = true ∨
  (Aparam.[4] <? 0) = true ∨ (Aparam.[5] <? 0) = true.
Proof. unfold penalized. rewrite !orb_true_iff. tauto. Qed.

Lemma like_penalized Nparam Aparam Npts uCo vCo Vis Sigma :
  penalized Aparam = true → like Nparam Aparam Npts uCo vCo Vis Sigma = sentinel.
Proof. unfold like. by intros ->. Qed.

Lemma like_unpenalized Nparam Aparam Npts uCo vCo Vis Sigma :
  penalized Aparam = false →
  like Nparam Aparam Npts uCo vCo Vis Sigma =
  - for_upto 1 Npts (chi2_body Nparam Aparam uCo vCo Vis Sigma) 0.
Proof. unfold like. by intros ->. Qed.

(** C5: a parameter vector with a strictly negative flux or width (index 0,
    1, 4 or 5) makes [like] return the sentinel -1e34, whatever the data
    set and whatever the functions that the chi-square sum would call: the
    sum is not evaluated. *)
Theorem like_negative_is_sentinel Nparam Aparam Npts uCo vCo Vis Sigma :
  (Aparam.[0] <? 0) = true ∨ (Aparam.[1] <? 0) = true ∨
  (Aparam.[4] <? 0) = true ∨ (Aparam.[5] <? 0) = true →
  like Nparam Aparam Npts uCo vCo Vis Sigma = (-1e34)%float
  ∧ ∀ (M' : Libm) Npts' uCo' vCo' Vis' Sigma',
      @like M' Nparam Aparam Npts' uCo' vCo' Vis' Sigma'
      = like Nparam Aparam Npts uCo vCo Vis Sigma.
Proof.
  intros H%penalized_true. split.
  - by apply like_penalized.
  - intros. unfold like. by rewrite H.
Qed.

(** C4, as the code has it: the guard of [like] is strict.  A strictly
    negative flux or width gives the sentinel; a vector whose fluxes and
    widths are all zero or positive, one of them exactly zero included, is
    not penalized, and [like] returns minus the chi-square sum. *)
Theorem like_guard_is_strict Nparam Aparam Npts uCo vCo Vis Sigma :
  ((Aparam.[0] <? 0) = true ∨ (Aparam.[1] <? 0) = true ∨
   (Aparam.[4] <? 0) = true ∨ (Aparam.[5] <? 0) = true →
   like Nparam Aparam Npts uCo vCo Vis Sigma = sentinel)
  ∧ ((0 <=? Aparam.[0]) = true → (0 <=? Aparam.[1]) = true →
     (0 <=? Aparam.[4]) = true → (0 <=? Aparam.[5]) = true →
     penalized Aparam = false
     ∧ like Nparam Aparam Npts uCo vCo Vis Sigma =
       - for_upto 1 Npts (chi2_body Nparam Aparam uCo vCo Vis Sigma) 0).
Proof.
  split.
  - intros H%penalized_true. by apply like_penalized.
  - intros H0 H1 H4 H5.
    assert (penalized Aparam = false) as E.
    { unfold penalized. by rewrite !nonneg_not_negative. }
    split; [done | by apply like_unpenalized].
Qed.

(** C3, as the code has it: [post] is the sum of [prior] and [like] for
    every parameter vector.  With a negative flux or width it is the prior,
    which is evaluated all the same, plus the sentinel; that is NaN when the
    product of the two fluxes and widths is negative, [log] of a negative
    number being NaN. *)
Theorem post_adds_prior Nparam Aparam Npts uCo vCo Vis Sigma :
  ((Aparam.[0] <? 0) = true ∨ (Aparam.[1] <? 0) = true ∨
   (Aparam.[4] <? 0) = true ∨ (Aparam.[5] <? 0) = true →
   post Nparam Aparam Npts uCo vCo Vis Sigma = prior Nparam Aparam + sentinel
   ∧ ((∀ x, (x <? 0) = true → log x = nan) →
      (Aparam.[0] * Aparam.[1] * Aparam.[4] * Aparam.[5] <? 0) = true →
      post Nparam Aparam Npts uCo vCo Vis Sigma = nan))
  ∧ (penalized Aparam = false →
     post Nparam Aparam Npts uCo vCo Vis Sigma =
     prior Nparam Aparam + like Nparam Aparam Npts uCo vCo Vis Sigma).
Proof.
  split; [|done].
  intros H%penalized_true. unfold post. rewrite like_penalized by done.
  split; [done|]. intros Hlog Hneg. unfold prior. by rewrite Hlog.
Qed.

(** C10, as the code has it: [model] returns NaN or a value that is at least
    zero (plus infinity included); it is at least zero whenever the summed
    real part [Vr1 + Vr2] and the imaginary part [Vi2] are not NaN. *)
Theorem model_nan_or_nonneg uCo vCo Nparam Aparam :
  (model uCo vCo Nparam Aparam = nan ∨ (0 <=? model uCo vCo Nparam Aparam) = true)
  ∧ (∀ Vr1 Vr2 Vi2,
       model_parts uCo vCo Nparam Aparam = (Vr1, Vr2, Vi2) →
       Vr1 + Vr2 ≠ nan → Vi2 ≠ nan →
       (0 <=? model uCo vCo Nparam Aparam) = true).
Proof.
  unfold model. destruct (model_parts uCo vCo Nparam Aparam) as [[Vr1 Vr2] Vi2].
  split; [apply modulus_nan_or_nonneg|].
  intros ??? [= <- <- <-]. apply modulus_nonneg.
Qed.
End EvaluatorFacts.

Section EvaluatorRuns.
Import Reference.
#[local] Existing Instance Reference.libm.
Open Scope float_scope.

Lemma ref_log_negative x : (x <? 0) = true → ref_log x = nan.
Proof. intros H. unfold ref_log. rewrite H. by destruct (is_nan x). Qed.

Lemma like_negative_is_sentinel_witness :
  ((Aparam_negative_flux.[0] <? 0) = true ∨ (Aparam_negative_flux.[1] <? 0) = true ∨
   (Aparam_negative_flux.[4] <? 0) = true ∨ (Aparam_negative_flux.[5] <? 0) = true)
  ∧ like 6 Aparam_negative_flux 1 uCo1 vCo1 Vis1 Sigma1 = (-1e34)%float.
Proof.
  split; [left; reflexivity|].
  apply (like_negative_is_sentinel 6 Aparam_negative_flux 1 uCo1 vCo1 Vis1 Sigma1).
  left; reflexivity.
Defined.

(** C4 fails on the code: with the flux of the first component exactly zero
    the guard does not fire, and [like] is the chi-square of the data point,
    not the sentinel. *)
Lemma like_zero_flux_not_sentinel :
  (Aparam_zero_flux.[0] <=? 0) = true
  ∧ like 6 Aparam_zero_flux 1 uCo1 vCo1 Vis1 Sigma1 = (-2024.9999999999995)%float
  ∧ like 6 Aparam_zero_flux 1 uCo1 vCo1 Vis1 Sigma1 ≠ sentinel.
Proof. split; [|split]; [reflexivity | by vm_compute | by vm_compute]. Qed.

Lemma like_guard_is_strict_witness :
  like 6 Aparam_negative_flux 1 uCo1 vCo1 Vis1 Sigma1 = sentinel
  ∧ penalized Aparam_zero_flux = false
  ∧ like 6 Aparam_zero_flux 1 uCo1 vCo1 Vis1 Sigma1 =
    - for_upto 1 1 (chi2_body 6 Aparam_zero_flux uCo1 vCo1 Vis1 Sigma1) 0.
Proof.
  split.
  - apply (like_guard_is_strict 6 Aparam_negative_flux 1 uCo1 vCo1 Vis1 Sigma1).
    left; reflexivity.
  - apply (like_guard_is_strict 6 Aparam_zero_flux 1 uCo1 vCo1 Vis1 Sigma1);
      reflexivity.
Defined.

(** C3 fails on the code: with one negative flux [like] is the sentinel and
    [post] is NaN, not the sentinel. *)
Lemma post_negative_flux_is_nan :
  (Aparam_negative_flux.[0] <? 0) = true
  ∧ like 6 Aparam_negative_flux 1 uCo1 vCo1 Vis1 Sigma1 = sentinel
  ∧ post 6 Aparam_negative_flux 1 uCo1 vCo1 Vis1 Sigma1 = nan
  ∧ post 6 Aparam_negative_flux 1 uCo1 vCo1 Vis1 Sigma1 ≠ sentinel.
Proof. repeat split; by vm_compute. Qed.

Lemma post_adds_prior_witness :
  post 6 Aparam_negative_flux 1 uCo1 vCo1 Vis1 Sigma1
  = prior 6 Aparam_negative_flux + sentinel
  ∧ post 6 Aparam_negative_flux 1 uCo1 vCo1 Vis1 Sigma1 = nan
  ∧ post 6 Aparam0 1 uCo1 vCo1 Vis1 Sigma1
    = prior 6 Aparam0 + like 6 Aparam0 1 uCo1 vCo1 Vis1 Sigma1.
Proof.
  pose proof (post_adds_prior 6 Aparam_negative_flux 1 uCo1 vCo1 Vis1 Sigma1) as [H _].
  destruct H as [H1 H2]; [left; reflexivity|].
  split; [exact H1|]. split.
  - apply H2; [exact ref_log_negative | reflexivity].
  - apply (post_adds_prior 6 Aparam0 1 uCo1 vCo1 Vis1 Sigma1). reflexivity.
Defined.

(** With two negative components the product is positive, the prior is a
    small number, and the sum is the sentinel again: the addition absorbs
    the prior. *)
Example post_two_negative :
  post 6 Aparam_two_negative 1 uCo1 vCo1 Vis1 Sigma1 = sentinel.
Proof. by vm_compute. Qed.

(** C10 fails on the code: all inputs are finite, the square of the width
    overflows, infinity times the zero baseline is NaN, and so is the
    result. *)
Lemma model_finite_input_nan :
  is_finite 0 = true
  ∧ forallb is_finite Aparam_wide = true
  ∧ model 0 0 6 Aparam_wide = nan
  ∧ (0 <=? model 0 0 6 Aparam_wide) = false.
Proof. repeat split; by vm_compute. Qed.

Lemma model_nan_or_nonneg_witness :
  (4.5 + 1.4 ≠ nan) ∧ (-0 ≠ nan) ∧ (0 <=? model 0 0 6 Aparam0) = true.
Proof.
  split; [done|]. split; [done|].
  apply (model_nan_or_nonneg 0 0 6 Aparam0) with (Vr1 := 4.5) (Vr2 := 1.4) (Vi2 := -0);
    done.
Defined.

(** The end-to-end scenario of the specification: at zero baseline the two
    Gaussians collapse to their peak amplitudes. *)
Example model_zero_baseline : model 0 0 6 Aparam0 = 4.5 + 1.4.
Proof. by vm_compute. Qed.
End EvaluatorRuns.

(** ** Loops over C arrays *)

Section Loops.
Context {St : Type}.
Implicit Types (body : Z → St → St) (s : St).

Lemma for_loop_snoc n i body s :
  for_loop (S n) i body s = body (i + Z.of_nat n)%Z (for_loop n i body s).
Proof.
  revert i s. induction n as [|n IH]; intros i s.
  - simpl. by rewrite Z.add_0_r.
  - change (for_loop (S (S n)) i body s) with (for_loop (S n) (i + 1) body (body i s)).
    rewrite IH. simpl. f_equal. lia.
Qed.

Lemma for_loop_invariant (P : St → Prop) n i body s :
  P s → (∀ j s', P s' → P (body j s')) → P (for_loop n i body s).
Proof.
  intros Hs Hbody. revert i s Hs. induction n as [|n IH]; intros i s Hs; simpl; auto.
Qed.

Lemma for_upto_count hi body s :
  for_upto 1 hi body s = for_loop (Z.to_nat hi) 1 body s.
Proof. unfold for_upto. do 2 f_equal. lia. Qed.
End Loops.

Section ArrayLoops.
Context {M : Libm} {G : MTgen}.
Open Scope float_scope.

Lemma length_store a i x : length (store a i x) = length a.
Proof. apply length_insert. Qed.

(** A loop that stores [f 0], [f 1], ... in the cells 0, 1, ... of [dst]. *)
Lemma for_loop_store (f : nat → float) k dst :
  (k ≤ length dst)%nat →
  for_loop k 1 (λ i d, store d (i - 1) (f (Z.to_nat (i - 1)))) dst
  = (f <$> seq 0 k) ++ drop k dst.
Proof.
  induction k as [|k IH]; intros Hk.
  - by rewrite drop_0.
  - rewrite for_loop_snoc, IH by lia. unfold store.
    replace (Z.to_nat (1 + Z.of_nat k - 1)) with k by lia.
    rewrite seq_S, fmap_app. simpl.
    rewrite <- (Nat.add_0_r k) at 1.
    replace (k + 0)%nat with (length (f <$> seq 0 k) + 0)%nat
      by (by rewrite length_fmap, length_seq).
    rewrite insert_app_r.
    destruct (drop k dst) as [|y tl] eqn:E.
    { apply (f_equal length) in E. rewrite length_drop in E. simpl in E. lia. }
    simpl. rewrite <- app_assoc. simpl. do 2 f_equal.
    change tl with (drop 1 (y :: tl)). rewrite <- E, drop_drop. f_equal. lia.
Qed.

Lemma lookup_total_seq (a : list float) k :
  (k ≤ length a)%nat → (λ j, a !!! j) <$> seq 0 k = take k a.
Proof.
  intros Hk. apply list_eq. intros i.
  rewrite list_lookup_fmap. destruct (decide (i < k)%nat) as [Hi|Hi].
  - rewrite lookup_seq_lt by done. simpl. rewrite lookup_take_lt by done.
    symmetry. apply list_lookup_lookup_total_lt. lia.
  - rewrite lookup_seq_ge by lia. simpl. symmetry.
    apply lookup_ge_None. rewrite length_take. lia.
Qed.

(** Copying the first [Nparam] cells. *)
Lemma copy_params_take Nparam src dst :
  (Z.to_nat Nparam ≤ length src)%nat → (Z.to_nat Nparam ≤ length dst)%nat →
  copy_params Nparam src dst = take (Z.to_nat Nparam) src ++ drop (Z.to_nat Nparam) dst.
Proof.
  intros Hs Hd. unfold copy_params. rewrite for_upto_count.
  rewrite <- lookup_total_seq by done. by apply (for_loop_store (λ j, src !!! j)).
Qed.

Lemma length_copy_params Nparam src dst :
  length (copy_params Nparam src dst) = length dst.
Proof.
  unfold copy_params, for_upto.
  apply (for_loop_invariant (λ d, length d = length dst)); [done|].
  intros j d Hd. by rewrite length_store.
Qed.
End ArrayLoops.

(** ** One iteration of the sampler *)

Section Iteration.
Context {M : Libm} {G : MTgen}.
Variables (Nparam : Z) (dev : list float) (Npts : Z) (uCo vCo Vis Sigma : list float).
Open Scope float_scope.

#[local] Abbreviation n := (Z.to_nat Nparam).
#[local] Abbreviation cand := (candidate Nparam dev).
#[local] Abbreviation ppost := (probpost_of Nparam dev Npts uCo vCo Vis Sigma).
#[local] Abbreviation acc := (accepted Nparam dev Npts uCo vCo Vis Sigma).
#[local] Abbreviation nmax := (new_max Nparam dev Npts uCo vCo Vis Sigma).
#[local] Abbreviation body := (walk_body Nparam dev Npts uCo vCo Vis Sigma).

Lemma length_propose Aparam apo mt :
  length (propose Nparam dev Aparam (apo, mt)).1 = length apo.
Proof.
  unfold propose, for_upto.
  apply (for_loop_invariant (λ s, length s.1 = length apo)); [done|].
  intros j [a m] Ha. unfold propose_body. simpl in *.
  destruct (gauss _ m). simpl. by rewrite length_store.
Qed.

Lemma length_candidate st : length (cand st) = length (w_AparamPlusOne st).
Proof. apply length_propose. Qed.

(** The row [ichain - 1] of the block receives the first [Nparam] cells of
    [Aparam]; the other rows are left as they are. *)
Lemma record_chain_row ichain Aparam chains :
  (n ≤ length Aparam)%nat →
  (∀ row, chains !! Z.to_nat (ichain - 1) = Some row → length row = n) →
  record_chain Nparam ichain Aparam chains
  = <[Z.to_nat (ichain - 1) := take n Aparam]> chains.
Proof.
  intros HA Hrow. unfold record_chain. rewrite for_upto_count.
  set (r := Z.to_nat (ichain - 1)).
  destruct (decide (r < length chains)%nat) as [Hr|Hr].
  2:{ rewrite list_insert_ge by lia.
      apply (for_loop_invariant (λ ch, ch = chains)); [done|].
      intros j ch ->. unfold store2. fold r. by rewrite list_insert_ge by lia. }
  destruct (lookup_lt_is_Some_2 chains r Hr) as [row Erow].
  specialize (Hrow row Erow).
  assert (∀ k, (k ≤ n)%nat →
    for_loop k 1 (λ index ch, store2 ch (ichain - 1) (index - 1) Aparam.[(index - 1)%Z]) chains
    = <[r := ((λ j, Aparam !!! j) <$> seq 0 k) ++ drop k row]> chains) as Hloop.
  { induction k as [|k IH]; intros Hk.
    - simpl. rewrite drop_0. symmetry. by apply list_insert_id.
    - rewrite for_loop_snoc, IH by lia. unfold store2. fold r.
      rewrite list_lookup_total_insert_eq by done.
      rewrite list_insert_insert_eq. f_equal.
      rewrite <- (for_loop_store (λ j, Aparam !!! j) k row) by lia.
      rewrite <- (for_loop_store (λ j, Aparam !!! j) (S k) row) by lia.
      by rewrite for_loop_snoc. }
  rewrite Hloop by done. f_equal.
  rewrite lookup_total_seq by done.
  rewrite drop_ge by lia. by rewrite app_nil_r.
Qed.

(** The body of the loop, by the test of its [if]s. *)
Lemma walk_body_eq ichain st :
  body ichain st =
  let Aparam' :=
    if acc st then copy_params Nparam (cand st) (w_Aparam st)
    else w_Aparam st in
  {| w_Aparam := Aparam';
     w_AparamPlusOne := cand st;
     w_AparamMax :=
       if nmax st then copy_params Nparam Aparam' (w_AparamMax st)
       else w_AparamMax st;
     w_accept := if acc st then (w_accept st + 1)%Z else w_accept st;
     w_probpre := w_probpre st;
     w_postMax := if nmax st then ppost st else w_postMax st;
     w_chains := record_chain Nparam ichain Aparam' (w_chains st);
     w_mt := (draw01 (propose Nparam dev (w_Aparam st) (w_AparamPlusOne st, w_mt st)).2).2 |}.
Proof.
  unfold walk_body, new_max, accepted, probpost_of, probRandom_of, candidate.
  destruct (propose _ _ _ _) as [apo mt]. simpl.
  destruct (draw01 mt) as [r mt']. simpl.
  destruct (geb _ _); simpl; [destruct (gtb _ _)|]; reflexivity.
Qed.

(** The arrays keep their sizes. *)
Record sized (Nchain : Z) (st : walker) : Prop := {
  sized_Aparam : (n ≤ length (w_Aparam st))%nat;
  sized_AparamPlusOne : length (w_AparamPlusOne st) = n;
  sized_AparamMax : length (w_AparamMax st) = n;
  sized_chains : length (w_chains st) = Z.to_nat Nchain;
  sized_rows : ∀ r row, w_chains st !! r = Some row → length row = n
}.

Lemma length_indeterminate junk base k : length (indeterminate junk base k) = k.
Proof. unfold indeterminate. by rewrite length_fmap, length_seq. Qed.

Lemma sized_init junk rank Nchain Aparam :
  (n ≤ length Aparam)%nat →
  sized Nchain (walk_init Nparam Npts uCo vCo Vis Sigma junk rank Nchain Aparam).
Proof.
  intros HA. split; simpl; try done; try apply length_indeterminate.
  - by rewrite length_fmap, length_seq.
  - intros r row [j [-> _]]%list_lookup_fmap_Some. apply length_indeterminate.
Qed.

Lemma step_Aparam Nchain ichain st :
  sized Nchain st →
  take n (w_Aparam (body ichain st))
  = if acc st then cand st else take n (w_Aparam st).
Proof.
  intros [HA HP HM HC HR]. rewrite walk_body_eq. simpl.
  destruct (acc st); [|done].
  rewrite copy_params_take by (rewrite ?length_candidate; lia).
  rewrite take_app_le by (rewrite length_take, length_candidate; lia).
  rewrite take_take, Nat.min_id. apply take_ge. rewrite length_candidate. lia.
Qed.

Lemma step_AparamMax Nchain ichain st :
  sized Nchain st →
  w_AparamMax (body ichain st)
  = if nmax st then cand st else w_AparamMax st.
Proof.
  intros Hst. pose proof (step_Aparam Nchain ichain st Hst) as HA'.
  destruct Hst as [HA HP HM HC HR]. rewrite walk_body_eq in *. simpl in *.
  unfold new_max in *. destruct (acc st); [|done]. simpl.
  destruct (gtb _ _); [|done].
  rewrite copy_params_take by (rewrite ?length_copy_params; lia).
  rewrite HA'. rewrite drop_ge by lia. apply app_nil_r.
Qed.

Lemma step_chains Nchain ichain st :
  sized Nchain st →
  w_chains (body ichain st)
  = <[Z.to_nat (ichain - 1) := take n (w_Aparam (body ichain st))]> (w_chains st).
Proof.
  intros [HA HP HM HC HR]. rewrite walk_body_eq. simpl.
  apply record_chain_row; [|by eauto].
  destruct (acc st); [|done]. by rewrite length_copy_params.
Qed.

Lemma sized_step Nchain ichain st : sized Nchain st → sized Nchain (body ichain st).
Proof.
  intros Hst. pose proof (step_chains Nchain ichain st Hst) as HCh.
  pose proof (step_AparamMax Nchain ichain st Hst) as HMx.
  destruct Hst as [HA HP HM HC HR].
  assert (n ≤ length (w_Aparam (body ichain st)))%nat as HA'.
  { rewrite walk_body_eq. simpl. destruct (acc st); [|done].
    by rewrite length_copy_params. }
  split; try done.
  - rewrite walk_body_eq. simpl. by rewrite length_candidate.
  - rewrite HMx. destruct (nmax st); [|done]. by rewrite length_candidate.
  - rewrite HCh. by rewrite length_insert.
  - intros r row. rewrite HCh.
    intros [(_ & <- & _)|[_ ?]]%list_lookup_insert_Some; [|by eauto].
    rewrite length_take. lia.
Qed.
End Iteration.

(** ** A run of [walkers] *)

Section Run.
Context {M : Libm} {G : MTgen}.
Variables (Nparam : Z) (dev : list float) (Npts : Z) (uCo vCo Vis Sigma : list float).
Variables (junk : nat → float) (rank Nchain : Z) (Aparam : list float).
Open Scope float_scope.

#[local] Abbreviation n := (Z.to_nat Nparam).
#[local] Abbreviation cand := (candidate Nparam dev).
#[local] Abbreviation ppost := (probpost_of Nparam dev Npts uCo vCo Vis Sigma).
#[local] Abbreviation acc := (accepted Nparam dev Npts uCo vCo Vis Sigma).
#[local] Abbreviation nmax := (new_max Nparam dev Npts uCo vCo Vis Sigma).
#[local] Abbreviation body := (walk_body Nparam dev Npts uCo vCo Vis Sigma).
#[local] Abbreviation s0 := (walk_init Nparam Npts uCo vCo Vis Sigma junk rank Nchain Aparam).
(** The state after [k] iterations. *)
#[local] Abbreviation after k :=
  (walkers_after junk rank Nchain Nparam Aparam dev Npts uCo vCo Vis Sigma k).
#[local] Abbreviation result :=
  (walkers junk rank Nchain Nparam Aparam dev Npts uCo vCo Vis Sigma).

Lemma after_S k : after (S k) = body (1 + Z.of_nat k)%Z (after k).
Proof. apply for_loop_snoc. Qed.

Lemma walk_after : walk Nparam dev Npts uCo vCo Vis Sigma Nchain s0 = after (Z.to_nat Nchain).
Proof. apply for_upto_count. Qed.

Lemma sized_after k :
  (n ≤ length Aparam)%nat → sized Nparam Nchain (after k).
Proof.
  intros HA. induction k as [|k IH]; [by apply sized_init|].
  rewrite after_S. by apply sized_step.
Qed.

Lemma chains_after k i :
  (n ≤ length Aparam)%nat → (k ≤ Z.to_nat Nchain)%nat → (i < k)%nat →
  w_chains (after k) !! i = Some (take n (w_Aparam (after (S i)))).
Proof.
  intros HA. induction k as [|k IH]; intros Hk Hi; [lia|].
  rewrite after_S. erewrite step_chains by by apply sized_after.
  rewrite <- after_S. replace (Z.to_nat (1 + Z.of_nat k - 1)) with k by lia.
  destruct (decide (i = k)) as [->|Hne].
  - apply list_lookup_insert_eq. rewrite (sized_chains _ _ _ (sized_after k HA)). lia.
  - rewrite list_lookup_insert_ne by done. apply IH; lia.
Qed.

(** C7: the chain record has [Nchain] rows, and row [i - 1] is the
    parameter vector right after iteration [i]: the candidate of that
    iteration if it was accepted, the vector of before otherwise. *)
Theorem chain_record :
  (Z.to_nat Nparam ≤ length Aparam)%nat →
  let rows := chain_rows (walkers junk rank Nchain Nparam Aparam dev Npts uCo vCo Vis Sigma) in
  let state k := walkers_after junk rank Nchain Nparam Aparam dev Npts uCo vCo Vis Sigma k in
  length rows = Z.to_nat Nchain
  ∧ ∀ i : Z, (1 ≤ i ≤ Nchain)%Z →
      rows !! Z.to_nat (i - 1)
      = Some (take (Z.to_nat Nparam) (w_Aparam (state (Z.to_nat i))))
      ∧ take (Z.to_nat Nparam) (w_Aparam (state (Z.to_nat i)))
        = if accepted Nparam dev Npts uCo vCo Vis Sigma (state (Z.to_nat (i - 1)))
          then candidate Nparam dev (state (Z.to_nat (i - 1)))
          else take (Z.to_nat Nparam) (w_Aparam (state (Z.to_nat (i - 1)))).
Proof.
  intros HA. unfold walkers. simpl. rewrite walk_after. split.
  - apply (sized_chains _ _ _ (sized_after _ HA)).
  - intros i Hi. replace (Z.to_nat i) with (S (Z.to_nat (i - 1))) by lia. split.
    + apply chains_after; [done | lia | lia].
    + rewrite after_S. by apply step_Aparam with (Nchain := Nchain), sized_after.
Qed.

Lemma accept_step k :
  w_accept (after (S k))
  = if acc (after k) then (w_accept (after k) + 1)%Z else w_accept (after k).
Proof. rewrite after_S, walk_body_eq. reflexivity. Qed.

Lemma accept_bounds k : (0 ≤ w_accept (after k) ≤ Z.of_nat k)%Z.
Proof.
  induction k as [|k IH]; [simpl; lia|].
  rewrite accept_step. destruct (acc _); lia.
Qed.

(** The posterior of the initial parameter vector, computed before the
    loop, is what every iteration compares with. *)
Lemma probpre_after k :
  w_probpre (after k) = post Nparam Aparam Npts uCo vCo Vis Sigma.
Proof.
  induction k as [|k IH]; [done|]. rewrite after_S, walk_body_eq. exact IH.
Qed.

Lemma accepted_after k :
  acc (after k)
  = geb (ppost (after k))
        (post Nparam Aparam Npts uCo vCo Vis Sigma + log (probRandom_of Nparam dev (after k))).
Proof. unfold accepted. by rewrite probpre_after. Qed.

(** *** The MAP state *)

Lemma postMax_step k :
  w_postMax (after (S k))
  = if nmax (after k) then ppost (after k) else w_postMax (after k).
Proof. rewrite after_S, walk_body_eq. reflexivity. Qed.

Lemma accepted_not_nan st : acc st = true → ppost st ≠ nan.
Proof. unfold accepted, geb. by intros [_ ?]%leb_not_nan. Qed.

Lemma postMax_not_nan k : w_postMax (after k) ≠ nan.
Proof.
  induction k as [|k IH]; [done|]. rewrite postMax_step.
  destruct (nmax (after k)) eqn:E; [|done].
  apply andb_true_iff in E as [E _]. by apply accepted_not_nan.
Qed.

Lemma postMax_step_leb k : (w_postMax (after k) <=? w_postMax (after (S k))) = true.
Proof.
  rewrite postMax_step. destruct (nmax (after k)) eqn:E.
  - apply andb_true_iff in E as [_ E]. by apply ltb_leb.
  - apply leb_refl, postMax_not_nan.
Qed.

Lemma postMax_monotone j k :
  (j ≤ k)%nat → (w_postMax (after j) <=? w_postMax (after k)) = true.
Proof.
  induction 1 as [|k _ IH]; [apply leb_refl, postMax_not_nan|].
  eapply leb_trans; [exact IH | apply postMax_step_leb].
Qed.

(** The MAP posterior is at least the posterior of every candidate that has
    been accepted. *)
Lemma postMax_dominates j k :
  (j < k)%nat → acc (after j) = true → (ppost (after j) <=? w_postMax (after k)) = true.
Proof.
  intros Hjk Hacc.
  eapply leb_trans; [|apply (postMax_monotone (S j) k); lia].
  rewrite postMax_step. unfold new_max. rewrite Hacc. simpl.
  destruct (gtb _ _) eqn:E.
  - by apply leb_refl, accepted_not_nan.
  - apply leb_total; [apply postMax_not_nan | by apply accepted_not_nan | exact E].
Qed.

(** Until a candidate sets it, the MAP state is the sentinel and the
    indeterminate content of [AparamMax]; afterwards it is the last
    candidate that set it, with its posterior. *)
Lemma map_state k :
  (n ≤ length Aparam)%nat →
  ((∀ j, (j < k)%nat → nmax (after j) = false)
   ∧ w_postMax (after k) = sentinel
   ∧ w_AparamMax (after k) = indeterminate junk n n)
  ∨ (∃ j, (j < k)%nat ∧ nmax (after j) = true
          ∧ w_postMax (after k) = ppost (after j)
          ∧ w_AparamMax (after k) = cand (after j)).
Proof.
  intros HA. induction k as [|k IH].
  { left. split; [lia | done]. }
  rewrite postMax_step, after_S.
  erewrite step_AparamMax by by apply sized_after.
  destruct (nmax (after k)) eqn:E.
  - right. exists k. split; [lia | done].
  - destruct IH as [(Hno & HP & HM)|(j & Hj & Hnm & HP & HM)].
    + left. split; [|done]. intros j Hj.
      destruct (decide (j = k)) as [->|]; [done | apply Hno; lia].
    + right. exists j. split; [lia | done].
Qed.

Lemma Aparam_out_take :
  (n ≤ length Aparam)%nat →
  take n (Aparam_out result) = w_AparamMax (after (Z.to_nat Nchain)).
Proof.
  intros HA. unfold walkers, walkers_finish. simpl. rewrite walk_after.
  destruct (sized_after (Z.to_nat Nchain) HA) as [H1 H2 H3 H4 H5].
  rewrite copy_params_take by lia.
  rewrite take_app_le by (rewrite length_take; lia).
  rewrite take_take, Nat.min_id. apply take_ge. lia.
Qed.

(** C6, as the code has it: [*postMax] starts from the sentinel and never
    decreases; at the end it is at least the posterior of every accepted
    candidate; and once a candidate has set the MAP state, the vector
    returned in [Aparam] is a candidate whose posterior is the final
    [*postMax].  The initial vector never enters the MAP state. *)
Theorem map_posterior :
  (Z.to_nat Nparam ≤ length Aparam)%nat →
  let result := walkers junk rank Nchain Nparam Aparam dev Npts uCo vCo Vis Sigma in
  let state k := walkers_after junk rank Nchain Nparam Aparam dev Npts uCo vCo Vis Sigma k in
  w_postMax (state 0%nat) = sentinel
  ∧ (∀ j k, (j ≤ k)%nat → (w_postMax (state j) <=? w_postMax (state k)) = true)
  ∧ (∀ j, (j < Z.to_nat Nchain)%nat →
       accepted Nparam dev Npts uCo vCo Vis Sigma (state j) = true →
       (post Nparam (candidate Nparam dev (state j)) Npts uCo vCo Vis Sigma
        <=? postMax_out result) = true)
  ∧ ((∃ j, (j < Z.to_nat Nchain)%nat
           ∧ new_max Nparam dev Npts uCo vCo Vis Sigma (state j) = true) →
     ∃ j, (j < Z.to_nat Nchain)%nat
          ∧ new_max Nparam dev Npts uCo vCo Vis Sigma (state j) = true
          ∧ take (Z.to_nat Nparam) (Aparam_out result) = candidate Nparam dev (state j)
          ∧ postMax_out result
            = post Nparam (candidate Nparam dev (state j)) Npts uCo vCo Vis Sigma).
Proof.
  intros HA. split; [done|]. split; [apply postMax_monotone|].
  assert (postMax_out result = w_postMax (after (Z.to_nat Nchain))) as ->.
  { unfold walkers. simpl. by rewrite walk_after. }
  split; [intros j Hj Hacc; by apply postMax_dominates|].
  intros (j & Hj & Hnm). rewrite Aparam_out_take by done.
  destruct (map_state (Z.to_nat Nchain) HA) as [(Hno & _)|(j' & Hj' & Hnm' & HP & HM)].
  - rewrite Hno in Hnm by done. discriminate.
  - exists j'. done.
Qed.

(** C8, the counter: [accept] starts at 0, grows by at most 1 in an
    iteration, and ends between 0 and the chain length. *)
Lemma accept_count :
  w_accept (after 0) = 0%Z
  ∧ (∀ k, w_accept (after (S k)) = w_accept (after k)
          ∨ w_accept (after (S k)) = (w_accept (after k) + 1)%Z)
  ∧ (0 ≤ Nchain → 0 ≤ w_accept (after (Z.to_nat Nchain)) ≤ Nchain)%Z.
Proof.
  split; [done|]. split.
  - intros k. rewrite accept_step. destruct (acc _); auto.
  - intros HN. pose proof (accept_bounds (Z.to_nat Nchain)). lia.
Qed.
End Run.

(** ** The proposal generator *)

Section GaussFacts.
Context {M : Libm} {G : MTgen}.
Open Scope float_scope.

Lemma sqrt_negative x : (x <? 0) = true → sqrt x = nan.
Proof.
  rewrite ltb_spec. unfold SFltb. change (Prim2SF 0) with (S754_zero false).
  intros H. apply Prim2SF_nan. rewrite sqrt_spec.
  by destruct (Prim2SF x) as [| [] | | [] ? ?].
Qed.

Lemma mul_nan_r x : x * nan = nan.
Proof.
  apply Prim2SF_nan. rewrite mul_spec. change (Prim2SF nan) with S754_nan.
  by destruct (Prim2SF x).
Qed.

Lemma mul_nan_l x : nan * x = nan.
Proof. apply Prim2SF_nan. rewrite mul_spec. by change (Prim2SF nan) with S754_nan. Qed.

Lemma sqrt_nan : sqrt nan = nan.
Proof. reflexivity. Qed.

(** The draw 2^31 is read as the [int] -2^31, and
    [-2147483648/4294967295.0 + 0.5] is negative. *)
Lemma draw01_sign_bit mt :
  ((randomMT mt).1 mod 2 ^ 32 = 2 ^ 31)%Z → ((draw01 mt).1 <? 0) = true.
Proof.
  unfold draw01, int_of_bits. destruct (randomMT mt) as [d mt1]. simpl.
  intros ->. by vm_compute.
Qed.

(** C2 fails on the code: [gauss] returns NaN when the first draw of the
    call is 2^31.  The draw is read as an [int], -2^31, so that [y1] is
    negative; the logarithm of a negative number is NaN, and so are the
    square root and the product. *)
Theorem gauss_nan_of_negative_uniform sigma mt :
  (∀ x, (x <? 0) = true → log x = nan) →
  ((randomMT mt).1 mod 2 ^ 32 = 2 ^ 31)%Z →
  ((draw01 mt).1 <? 0) = true ∧ (gauss sigma mt).1 = nan.
Proof.
  intros Hlog Hd. pose proof (draw01_sign_bit mt Hd) as Hy.
  split; [done|].
  unfold gauss. destruct (draw01 mt) as [y1 mt1]. simpl in Hy.
  destruct (draw01 mt1) as [y2 mt2]. simpl.
  by rewrite (Hlog y1 Hy), (mul_nan_r (-2.0)), sqrt_nan, (mul_nan_r sigma), mul_nan_l.
Qed.
End GaussFacts.

Section SamplerRuns.
Import Reference.
#[local] Existing Instance Reference.libm.
Open Scope float_scope.

(** The draw 2147483648 gives [y1] about -1.16e-10. *)
Lemma gauss_nan_of_negative_uniform_witness :
  (draw01 (G := scripted []) [2147483648%Z; 0%Z]).1 = (-0x1p-33)%float
  ∧ (gauss (G := scripted []) 0.045 [2147483648%Z; 0%Z]).1 = nan.
Proof.
  split; [by vm_compute|].
  apply (gauss_nan_of_negative_uniform (G := scripted []) 0.045 [2147483648%Z; 0%Z]).
  - apply ref_log_negative.
  - reflexivity.
Defined.

#[local] Abbreviation run2 k :=
  (walkers_after (G := scripted draws_two_steps) sevens 0 2 6 Aparam0 dev0 1
     uCo1 vCo1 Vis1 Sigma1 k).

(** C1 fails on the code.  In this run the first candidate is accepted and
    has a higher posterior than the initial vector.  The second test still
    compares with the posterior of the initial vector, and accepts a
    candidate that the test against the posterior of the current vector
    rejects; the chain differs from the chain of the transition that the
    specification words. *)
Theorem walkers_compares_with_initial_posterior :
  accepted (G := scripted draws_two_steps) 6 dev0 1 uCo1 vCo1 Vis1 Sigma1 (run2 0%nat) = true
  ∧ w_probpre (run2 1%nat) = post 6 Aparam0 1 uCo1 vCo1 Vis1 Sigma1
  ∧ post 6 Aparam0 1 uCo1 vCo1 Vis1 Sigma1 = (-4.5405676628024327)%float
  ∧ post 6 (w_Aparam (run2 1%nat)) 1 uCo1 vCo1 Vis1 Sigma1 = (-4.5168794299628701)%float
  ∧ accepted (G := scripted draws_two_steps) 6 dev0 1 uCo1 vCo1 Vis1 Sigma1 (run2 1%nat) = true
  ∧ geb (probpost_of (G := scripted draws_two_steps) 6 dev0 1 uCo1 vCo1 Vis1 Sigma1 (run2 1%nat))
        (post 6 (w_Aparam (run2 1%nat)) 1 uCo1 vCo1 Vis1 Sigma1
         + log (probRandom_of (G := scripted draws_two_steps) 6 dev0 (run2 1%nat))) = false
  ∧ w_chains (run2 2%nat)
    ≠ w_chains
        (for_loop 2 1 (metropolis_body (G := scripted draws_two_steps) 6 dev0 1 uCo1 vCo1 Vis1 Sigma1)
           (walk_init (G := scripted draws_two_steps) 6 1 uCo1 vCo1 Vis1 Sigma1 sevens 0 2 Aparam0)).
Proof. repeat split; by vm_compute. Qed.

(** C6 fails on the code: with draws that are all 0 the only candidate is
    accepted and sets the MAP state, and its posterior is below the
    posterior of the initial vector. *)
Lemma final_map_below_initial_posterior :
  postMax_out (walkers (G := scripted []) sevens 0 1 6 Aparam0 dev0 1 uCo1 vCo1 Vis1 Sigma1)
  = (-4.9757608744186674)%float
  ∧ post 6 Aparam0 1 uCo1 vCo1 Vis1 Sigma1 = (-4.5405676628024327)%float
  ∧ (post 6 Aparam0 1 uCo1 vCo1 Vis1 Sigma1
     <=? postMax_out (walkers (G := scripted []) sevens 0 1 6 Aparam0 dev0 1 uCo1 vCo1 Vis1 Sigma1))
    = false.
Proof. repeat split; by vm_compute. Qed.

(** When no candidate is accepted the MAP state is never set: [*postMax] is
    the sentinel, and [Aparam] receives what [AparamMax] happened to hold. *)
Example no_candidate_accepted :
  let r := walkers (G := scripted (replicate 12 0%Z ++ [2147483647%Z])) sevens 0 1 6
             Aparam0 dev0 1 uCo1 vCo1 Vis1 Sigma1 in
  postMax_out r = sentinel ∧ Aparam_out r = [7; 7; 7; 7; 7; 7]
  ∧ chain_rows r = [Aparam0].
Proof. repeat split; by vm_compute. Qed.

Lemma map_posterior_witness :
  (Z.to_nat 6 ≤ length Aparam0)%nat
  ∧ (∃ j, (j < Z.to_nat 2)%nat
          ∧ new_max (G := scripted draws_two_steps) 6 dev0 1 uCo1 vCo1 Vis1 Sigma1 (run2 j) = true
          ∧ take (Z.to_nat 6)
              (Aparam_out (walkers (G := scripted draws_two_steps) sevens 0 2 6 Aparam0 dev0 1
                             uCo1 vCo1 Vis1 Sigma1))
            = candidate (G := scripted draws_two_steps) 6 dev0 (run2 j)
          ∧ postMax_out (walkers (G := scripted draws_two_steps) sevens 0 2 6 Aparam0 dev0 1
                           uCo1 vCo1 Vis1 Sigma1)
            = post 6 (candidate (G := scripted draws_two_steps) 6 dev0 (run2 j)) 1
                uCo1 vCo1 Vis1 Sigma1).
Proof.
  assert (Z.to_nat 6 ≤ length Aparam0)%nat as HA by (vm_compute; lia).
  split; [exact HA|].
  apply (map_posterior (G := scripted draws_two_steps) 6 dev0 1 uCo1 vCo1 Vis1 Sigma1
           sevens 0 2 Aparam0 HA).
  exists 0%nat. split; [vm_compute; lia | by vm_compute].
Defined.

Lemma chain_record_witness :
  (Z.to_nat 6 ≤ length Aparam0)%nat
  ∧ length (chain_rows (walkers (G := scripted draws_two_steps) sevens 0 2 6 Aparam0 dev0 1
                          uCo1 vCo1 Vis1 Sigma1)) = Z.to_nat 2
  ∧ chain_rows (walkers (G := scripted draws_two_steps) sevens 0 2 6 Aparam0 dev0 1
                  uCo1 vCo1 Vis1 Sigma1) !! Z.to_nat (2 - 1)
    = Some (take (Z.to_nat 6) (w_Aparam (run2 (Z.to_nat 2)))).
Proof.
  assert (Z.to_nat 6 ≤ length Aparam0)%nat as HA by (vm_compute; lia).
  split; [exact HA|].
  destruct (chain_record (G := scripted draws_two_steps) 6 dev0 1 uCo1 vCo1 Vis1 Sigma1
              sevens 0 2 Aparam0 HA) as [Hlen Hrows].
  split; [exact Hlen|]. apply (Hrows 2%Z). lia.
Defined.
End SamplerRuns.

(** ** Quotients of counts *)

Section Quotients.
Open Scope Z_scope.

Lemma digits2_pos_size p : digits2_pos p = Pos.size p.
Proof. induction p; simpl; congruence. Qed.

Lemma Zdigits2_log2 q : 0 < q → Zdigits2 q = Z.log2 q + 1.
Proof.
  destruct q as [|p|p]; try lia. intros _. simpl. rewrite digits2_pos_size.
  destruct p; simpl; lia.
Qed.

Lemma Zdigits2_bounds q d : 0 < d → 2 ^ (d - 1) ≤ q < 2 ^ d → Zdigits2 q = d.
Proof.
  intros Hd Hq. assert (0 < q) by (pose proof (Z.pow_pos_nonneg 2 (d - 1)); lia).
  rewrite Zdigits2_log2 by done.
  assert (Z.log2 q = d - 1) as ->; [|lia].
  apply Z.log2_unique; [lia|]. by replace (Z.succ (d - 1)) with d by lia.
Qed.

Lemma pos_iter_xO p k : Zpos (Pos.iter xO p k) = Zpos p * 2 ^ Zpos k.
Proof.
  induction k using Pos.peano_ind.
  - simpl. lia.
  - rewrite Pos.iter_succ. rewrite Pos2Z.inj_xO, IHk, Pos2Z.inj_succ, Z.pow_succ_r by lia. lia.
Qed.

Lemma loc_of_shr_record_of_loc m l : loc_of_shr_record (shr_record_of_loc m l) = l.
Proof. by destruct l as [|[]]. Qed.

Lemma shr_fexp_53 q e l :
  2 ^ 52 ≤ q < 2 ^ 53 → -1074 ≤ e →
  shr_fexp prec emax q e l = (shr_record_of_loc q l, e).
Proof.
  intros Hq He. unfold shr_fexp. rewrite (Zdigits2_bounds q 53) by lia.
  replace (fexp prec emax (53 + e) - e) with 0 by (unfold fexp, emin, prec, emax; lia).
  reflexivity.
Qed.

Lemma shr_fexp_54 q e l :
  2 ^ 53 ≤ q < 2 ^ 54 → -1074 ≤ e →
  shr_fexp prec emax q e l = (shr_1 (shr_record_of_loc q l), e + 1).
Proof.
  intros Hq He. unfold shr_fexp. rewrite (Zdigits2_bounds q 54) by lia.
  replace (fexp prec emax (54 + e) - e) with 1 by (unfold fexp, emin, prec, emax; lia).
  reflexivity.
Qed.

(** Rounding a 53-bit integer significand. *)
Lemma binary_round_aux_53 q e l :
  2 ^ 52 ≤ q < 2 ^ 53 → -1074 ≤ e ≤ 970 →
  binary_round_aux prec emax false q e l
  = if round_nearest_even q l <? 2 ^ 53
    then S754_finite false (Z.to_pos (round_nearest_even q l)) e
    else S754_finite false 4503599627370496 (e + 1).
Proof.
  intros Hq He. unfold binary_round_aux. rewrite shr_fexp_53 by lia.
  rewrite loc_of_shr_record_of_loc.
  replace (shr_m (shr_record_of_loc q l)) with q by (by destruct l as [|[]]).
  set (q1 := round_nearest_even q l).
  assert (q ≤ q1 ≤ q + 1) as Hq1.
  { subst q1. destruct l as [|[]]; simpl; try lia. destruct (Z.even q); lia. }
  destruct (Z.ltb_spec q1 (2 ^ 53)) as [Hlt|Hge].
  - rewrite shr_fexp_53 by lia. simpl.
    destruct q1 as [|p1|p1]; try lia.
    replace (e <=? emax - prec) with true; [done|].
    symmetry. apply Z.leb_le. unfold emax, prec. lia.
  - assert (q1 = 2 ^ 53) as -> by lia.
    rewrite shr_fexp_54 by lia. simpl.
    replace (e + 1 <=? emax - prec) with true; [done|].
    symmetry. apply Z.leb_le. unfold emax, prec. lia.
Qed.

Lemma shr_1_div2 q l :
  0 < q → shr_m (shr_1 (shr_record_of_loc q l)) = Z.div2 q.
Proof. destruct q as [|[]|]; try lia; intros _; by destruct l as [|[]]. Qed.

Lemma binary_round_aux_54 q e l :
  2 ^ 53 ≤ q < 2 ^ 54 → -1074 ≤ e ≤ 969 →
  binary_round_aux prec emax false q e l
  = binary_round_aux prec emax false (Z.div2 q) (e + 1)
      (loc_of_shr_record (shr_1 (shr_record_of_loc q l))).
Proof.
  intros Hq He. unfold binary_round_aux at 1. rewrite shr_fexp_54 by lia.
  unfold binary_round_aux.
  assert (2 ^ 52 ≤ Z.div2 q < 2 ^ 53) as Hh.
  { rewrite Z.div2_div. split.
    - apply Z.div_le_lower_bound; lia.
    - apply Z.div_lt_upper_bound; lia. }
  rewrite (shr_fexp_53 (Z.div2 q)) by lia.
  rewrite loc_of_shr_record_of_loc.
  rewrite shr_1_div2 by lia.
  replace (shr_m (shr_record_of_loc (Z.div2 q) _)) with (Z.div2 q); [done|].
  by destruct (loc_of_shr_record _) as [|[]].
Qed.

Lemma SFleb_one_lt m e : e < -52 → SFleb (S754_finite false m e) SFone = true.
Proof.
  intros He. unfold SFleb, SFone, SFcompare.
  destruct (Z.compare_spec e (-52)); lia.
Qed.

Lemma SFleb_one_53 q e l :
  2 ^ 52 ≤ q < 2 ^ 53 → -1074 ≤ e ≤ -53 →
  SFleb (binary_round_aux prec emax false q e l) SFone = true.
Proof.
  intros Hq He. rewrite binary_round_aux_53 by lia.
  destruct (_ <? _); [apply SFleb_one_lt; lia|].
  destruct (decide (e + 1 = -52)) as [->|]; [done | apply SFleb_one_lt; lia].
Qed.

Lemma SFleb_one_54 q e l :
  2 ^ 53 ≤ q < 2 ^ 54 → -1074 ≤ e ≤ -54 →
  SFleb (binary_round_aux prec emax false q e l) SFone = true.
Proof.
  intros Hq He. rewrite binary_round_aux_54 by lia.
  apply SFleb_one_53; [|lia].
  rewrite Z.div2_div. split.
  - apply Z.div_le_lower_bound; lia.
  - apply Z.div_lt_upper_bound; lia.
Qed.

Lemma SFleb_one_exact :
  SFleb (binary_round_aux prec emax false (2 ^ 53) (-53) loc_Exact) SFone = true.
Proof. reflexivity. Qed.

Lemma new_location_0 nb : new_location nb 0 = loc_Exact.
Proof. unfold new_location. by destruct (Z.even nb). Qed.

(** The quotient of two normal binary64 numbers, the first not above the
    second, is at most one. *)
Lemma SFdiv_le_one mx ex my ey :
  2 ^ 52 ≤ Zpos mx < 2 ^ 53 → 2 ^ 52 ≤ Zpos my < 2 ^ 53 →
  -60 ≤ ex → ey ≤ 60 →
  ex < ey ∨ (ex = ey ∧ (mx ≤ my)%positive) →
  SFleb (SF64div (S754_finite false mx ex) (S754_finite false my ey)) SFone = true.
Proof.
  intros Hx Hy Hex Hey Hle. unfold SF64div, SFdiv, SFdiv_core_binary.
  rewrite !(Zdigits2_bounds _ 53) by lia.
  replace (Z.min (fexp prec emax (53 + ex - (53 + ey))) (ex - ey)) with (ex - ey - 53)
    by (unfold fexp, emin, prec, emax; lia).
  replace (ex - ey - (ex - ey - 53)) with 53 by lia.
  rewrite Z.shiftl_mul_pow2 by lia.
  pose proof (Z.div_mod (Zpos mx * 2 ^ 53) (Zpos my)) as Hdm.
  pose proof (Z.mod_pos_bound (Zpos mx * 2 ^ 53) (Zpos my)) as Hmod.
  unfold Z.div, Z.modulo in Hdm, Hmod.
  destruct (Z.div_eucl (Zpos mx * 2 ^ 53) (Zpos my)) as [q r].
  simpl. specialize (Hdm ltac:(lia)). specialize (Hmod ltac:(lia)).
  assert (2 ^ 52 ≤ q < 2 ^ 54) as Hq by nia.
  destruct (decide (q < 2 ^ 53)) as [Hq53|Hq53].
  { apply SFleb_one_53; lia. }
  destruct Hle as [Hlt|[-> Hm]].
  { apply SFleb_one_54; lia. }
  assert (q = 2 ^ 53 ∧ r = 0) as [-> ->] by nia.
  replace (ey - ey - 53) with (-53) by lia.
  rewrite new_location_0. apply SFleb_one_exact.
Qed.

Open Scope float_scope.

(** The double of a positive integer below 2^53 is exact and normal. *)
Lemma binary_normalize_int z :
  (0 < z < 2 ^ 53)%Z →
  ∃ m, binary_normalize prec emax z 0 false = S754_finite false m (Z.log2 z - 52)
       ∧ Zpos m = (z * 2 ^ (52 - Z.log2 z))%Z.
Proof.
  intros Hz. destruct z as [|p|p]; try lia. simpl binary_normalize.
  pose proof (Z.log2_spec (Zpos p) ltac:(lia)) as Hlog.
  pose proof (Z.log2_nonneg (Zpos p)) as Hnn.
  assert (Z.log2 (Zpos p) < 53)%Z as Hlt by (apply Z.log2_lt_pow2; lia).
  unfold binary_round.
  change (Zpos (digits2_pos p)) with (Zdigits2 (Zpos p)).
  rewrite Zdigits2_log2 by lia.
  replace (fexp prec emax (Z.log2 (Zpos p) + 1 + 0)) with (Z.log2 (Zpos p) - 52)%Z
    by (unfold fexp, emin, prec, emax; lia).
  unfold shl_align. rewrite Z.sub_0_r.
  set (e := (Z.log2 (Zpos p) - 52)%Z) in *.
  assert (∃ m, (match e with Zneg d => (Pos.iter xO p d, e) | _ => (p, 0%Z) end) = (m, e)
               ∧ Zpos m = (Zpos p * 2 ^ (- e))%Z) as (m & -> & Hm).
  { destruct e as [|d|d] eqn:E; try lia.
    - exists p. split; [done|]. simpl. lia.
    - exists (Pos.iter xO p d). split; [done|]. by rewrite pos_iter_xO. }
  exists m. replace (52 - Z.log2 (Zpos p))%Z with (- e)%Z by lia. split; [|done].
  assert (2 ^ 52 ≤ Zpos m < 2 ^ 53)%Z as Hm53.
  { rewrite Hm. replace (2 ^ 52)%Z with (2 ^ Z.log2 (Zpos p) * 2 ^ (- e))%Z
      by (rewrite <- Z.pow_add_r by lia; f_equal; lia).
    replace (2 ^ 53)%Z with (2 ^ Z.succ (Z.log2 (Zpos p)) * 2 ^ (- e))%Z
      by (rewrite <- Z.pow_add_r by lia; f_equal; lia).
    assert (0 < 2 ^ (- e))%Z by (apply Z.pow_pos_nonneg; lia). nia. }
  rewrite binary_round_aux_53 by lia. simpl round_nearest_even.
  destruct (Z.ltb_spec (Zpos m) (2 ^ 53)); [done | lia].
Qed.

Lemma Prim2SF_double_of_int z :
  (0 < z < 2 ^ 53)%Z →
  ∃ m, Prim2SF (of_uint63 (Uint63.of_Z z)) = S754_finite false m (Z.log2 z - 52)
       ∧ Zpos m = (z * 2 ^ (52 - Z.log2 z))%Z.
Proof.
  intros Hz. rewrite of_uint63_spec, Uint63.of_Z_spec.
  rewrite Z.mod_small; [by apply binary_normalize_int|].
  change Uint63.wB with (2 ^ 63)%Z. lia.
Qed.

(** Multiplying a normal binary64 number by 1.0 leaves it as it is. *)
Lemma SFmul_one_l m e :
  (2 ^ 52 ≤ Zpos m < 2 ^ 53)%Z → (-1000 ≤ e ≤ 900)%Z →
  SF64mul (Prim2SF 1) (S754_finite false m e) = S754_finite false m e.
Proof.
  intros Hm He. change (Prim2SF 1) with (S754_finite false 4503599627370496 (-52)).
  unfold SF64mul, SFmul. simpl xorb. unfold binary_round_aux.
  assert (Zdigits2 (Zpos (4503599627370496 * m)) = 105%Z) as Hd.
  { apply Zdigits2_bounds; lia. }
  unfold shr_fexp at 1. rewrite Hd.
  replace (fexp prec emax (105 + (-52 + e)) - (-52 + e))%Z with 52%Z
    by (unfold fexp, emin, prec, emax; lia).
  unfold shr.
  change (SpecFloat.iter_pos shr_1 52 (shr_record_of_loc (Zpos (4503599627370496 * m)) loc_Exact))
    with {| shr_m := Zpos m; shr_r := false; shr_s := false |}.
  simpl. rewrite shr_fexp_53 by lia. simpl.
  replace (-52 + e + 52)%Z with e by lia.
  replace (e <=? emax - prec)%Z with true; [done|].
  symmetry. apply Z.leb_le. unfold emax, prec. lia.
Qed.

(** The quotient of two normal binary64 numbers of sign plus is not below
    zero. *)
Lemma SFdiv_nonneg mx ex my ey :
  SFleb (S754_zero false)
        (SF64div (S754_finite false mx ex) (S754_finite false my ey)) = true.
Proof.
  unfold SF64div, SFdiv.
  destruct (SFdiv_core_binary _ _ _ _ _ _) as [[mz ez] lz] eqn:E.
  apply SFplus_leb; [apply binary_round_aux_plus|].
  apply binary_round_aux_not_nan.
  unfold SFdiv_core_binary in E.
  set (m' := match _ with Z0 => _ | Zpos _ => _ | Zneg _ => _ end) in E.
  assert (0 ≤ m')%Z as Hm'.
  { subst m'. destruct (_ - _ - _)%Z; try done. by apply Z.shiftl_nonneg. }
  pose proof (Z.div_pos m' (Zpos my) Hm' ltac:(done)) as Hq.
  unfold Z.div in Hq. destruct (Z.div_eucl m' (Zpos my)) as [q r].
  by injection E as <- _ _.
Qed.

(** [accept/(1.0*Nchain)] for counts that fit an [int]. *)
Lemma ratio_bounds a N :
  (0 ≤ a ≤ N)%Z → (1 ≤ N < 2 ^ 53)%Z →
  (0 <=? double_of_int a / (1.0 * double_of_int N)) = true
  ∧ (double_of_int a / (1.0 * double_of_int N) <=? 1) = true.
Proof.
  intros Ha HN. rewrite !leb_spec, div_spec, mul_spec.
  change (Prim2SF 0) with (S754_zero false). change (Prim2SF 1.0) with (Prim2SF 1).
  unfold double_of_int.
  destruct (Z.ltb_spec N 0); [lia|]. destruct (Z.ltb_spec a 0); [lia|].
  destruct (Prim2SF_double_of_int N ltac:(lia)) as (mN & -> & HmN).
  pose proof (Z.log2_spec N ltac:(lia)) as HlN.
  pose proof (Z.log2_nonneg N) as HnN.
  assert (Z.log2 N < 53)%Z as HltN by (apply Z.log2_lt_pow2; lia).
  assert (2 ^ 52 ≤ Zpos mN < 2 ^ 53)%Z as HmN53.
  { rewrite HmN.
    replace (2 ^ 52)%Z with (2 ^ Z.log2 N * 2 ^ (52 - Z.log2 N))%Z
      by (rewrite <- Z.pow_add_r by lia; f_equal; lia).
    replace (2 ^ 53)%Z with (2 ^ Z.succ (Z.log2 N) * 2 ^ (52 - Z.log2 N))%Z
      by (rewrite <- Z.pow_add_r by lia; f_equal; lia).
    assert (0 < 2 ^ (52 - Z.log2 N))%Z by (apply Z.pow_pos_nonneg; lia). nia. }
  rewrite SFmul_one_l by lia.
  destruct (decide (a = 0%Z)) as [->|Hnz].
  { change (Prim2SF (of_uint63 (Uint63.of_Z 0))) with (S754_zero false). done. }
  destruct (Prim2SF_double_of_int a ltac:(lia)) as (ma & -> & Hma).
  split; [apply SFdiv_nonneg|].
  pose proof (Z.log2_spec a ltac:(lia)) as Hla.
  pose proof (Z.log2_nonneg a) as Hna.
  pose proof (Z.log2_le_mono a N ltac:(lia)) as Hmono.
  assert (2 ^ 52 ≤ Zpos ma < 2 ^ 53)%Z as Hma53.
  { rewrite Hma.
    replace (2 ^ 52)%Z with (2 ^ Z.log2 a * 2 ^ (52 - Z.log2 a))%Z
      by (rewrite <- Z.pow_add_r by lia; f_equal; lia).
    replace (2 ^ 53)%Z with (2 ^ Z.succ (Z.log2 a) * 2 ^ (52 - Z.log2 a))%Z
      by (rewrite <- Z.pow_add_r by lia; f_equal; lia).
    assert (0 < 2 ^ (52 - Z.log2 a))%Z by (apply Z.pow_pos_nonneg; lia). nia. }
  change (Prim2SF 1) with SFone.
  apply SFdiv_le_one; try lia.
  destruct (decide (Z.log2 a = Z.log2 N)) as [Heq|Hne]; [right | left; lia].
  split; [lia|].
  assert (Zpos ma ≤ Zpos mN)%Z; [|lia].
  rewrite Hma, HmN, Heq.
  assert (0 < 2 ^ (52 - Z.log2 N))%Z by (apply Z.pow_pos_nonneg; lia). nia.
Qed.
End Quotients.

(** ** More on the target distribution *)

Section MoreFloatFacts.
Open Scope float_scope.

Lemma add_nan_l x : nan + x = nan.
Proof. apply Prim2SF_nan. rewrite add_spec. by change (Prim2SF nan) with S754_nan. Qed.

Lemma leb_nan_l x : (nan <=? x) = false.
Proof. rewrite leb_spec. by change (Prim2SF nan) with S754_nan. Qed.

Lemma SFdiv_plus f g : SFplus f → SFplus g → SFplus (SF64div f g).
Proof.
  destruct f as [s|s| |s m e], g as [s'|s'| |s' m' e']; simpl; try done;
    intros -> ->; try done.
  unfold SF64div, SFdiv. destruct (SFdiv_core_binary _ _ _ _ _ _) as [[mz ez] lz].
  apply binary_round_aux_plus.
Qed.

(** The opposite of a double of sign plus is NaN or at most zero. *)
Lemma opp_plus_nonpos x : SFplus (Prim2SF x) → - x = nan ∨ (- x <=? 0) = true.
Proof.
  intros H. destruct (is_nan (- x)) eqn:E; [left; by apply is_nan_true | right].
  apply is_nan_false in E. rewrite <- Prim2SF_nan in E.
  rewrite leb_spec. rewrite opp_spec in *. change (Prim2SF 0) with (S754_zero false).
  destruct (Prim2SF x) as [s|s| |s m e]; simpl in *; try done; by subst s.
Qed.
End MoreFloatFacts.

Section MoreEvaluatorFacts.
Context {M : Libm}.
Open Scope float_scope.

Lemma chi2_plus Nparam Aparam uCo vCo Vis Sigma k :
  SFplus (Prim2SF (for_loop k 1 (chi2_body Nparam Aparam uCo vCo Vis Sigma) 0)).
Proof.
  apply (for_loop_invariant (λ c, SFplus (Prim2SF c))); [done|].
  intros j c Hc. unfold chi2_body. rewrite add_spec, div_spec, !mul_spec.
  apply SFadd_plus; [done|]. apply SFdiv_plus; apply SFmul_self_plus.
Qed.

(** X8: the log-likelihood that [like] returns is never positive: it is NaN
    or at most zero, the sentinel included. *)
Theorem like_never_positive Nparam Aparam Npts uCo vCo Vis Sigma :
  like Nparam Aparam Npts uCo vCo Vis Sigma = nan
  ∨ (like Nparam Aparam Npts uCo vCo Vis Sigma <=? 0) = true.
Proof.
  unfold like. destruct (penalized Aparam); [by right|].
  apply opp_plus_nonpos. rewrite for_upto_count. apply chi2_plus.
Qed.
End MoreEvaluatorFacts.

(** ** More on a run of [walkers] *)

Section MoreRuns.
Context {M : Libm} {G : MTgen}.
Variables (Nparam : Z) (dev : list float) (Npts : Z) (uCo vCo Vis Sigma : list float).
Variables (junk : nat → float) (rank Nchain : Z) (Aparam : list float).
Open Scope float_scope.

#[local] Abbreviation n := (Z.to_nat Nparam).
#[local] Abbreviation after k :=
  (walkers_after junk rank Nchain Nparam Aparam dev Npts uCo vCo Vis Sigma k).

Lemma walkers_eq :
  walkers junk rank Nchain Nparam Aparam dev Npts uCo vCo Vis Sigma
  = walkers_finish Nparam Nchain (after (Z.to_nat Nchain)).
Proof. unfold walkers. by rewrite walk_after. Qed.

(** X1: the counter [accept] is 0 before the first iteration, an iteration
    adds 1 to it exactly when it accepts its candidate, and after [k]
    iterations it lies between 0 and [k]. *)
Theorem acceptance_counter :
  let state k := walkers_after junk rank Nchain Nparam Aparam dev Npts uCo vCo Vis Sigma k in
  w_accept (state 0%nat) = 0%Z
  ∧ (∀ k, w_accept (state (S k))
          = if accepted Nparam dev Npts uCo vCo Vis Sigma (state k)
            then (w_accept (state k) + 1)%Z else w_accept (state k))
  ∧ (∀ k, (0 ≤ w_accept (state k) ≤ Z.of_nat k)%Z).
Proof.
  split; [done|]. split; [intros k; apply accept_step | intros k; apply accept_bounds].
Qed.

(** X2: for a chain length between 1 and [INT_MAX] the acceptance ratio
    that [walkers] returns, the double [accept/(1.0*Nchain)], lies in the
    closed interval from 0 to 1. *)
Theorem acceptance_ratio_in_unit_interval :
  (1 ≤ Nchain ≤ 2147483647)%Z →
  (0 <=? acceptance (walkers junk rank Nchain Nparam Aparam dev Npts uCo vCo Vis Sigma)) = true
  ∧ (acceptance (walkers junk rank Nchain Nparam Aparam dev Npts uCo vCo Vis Sigma) <=? 1) = true.
Proof.
  intros HN. rewrite walkers_eq. simpl.
  pose proof (accept_bounds Nparam dev Npts uCo vCo Vis Sigma junk rank Nchain Aparam
                (Z.to_nat Nchain)) as Hacc.
  apply ratio_bounds; lia.
Qed.

(** C8: for a chain length between 1 and [INT_MAX], the counter [accept]
    starts at 0, an iteration leaves it as it is or adds 1 to it, after the
    last iteration it lies between 0 and [Nchain], and the acceptance ratio
    that [walkers] returns, the double [accept/(1.0*Nchain)], lies in the
    closed interval from 0 to 1. *)
Theorem acceptance_count_and_ratio :
  (1 ≤ Nchain ≤ 2147483647)%Z →
  let state k := walkers_after junk rank Nchain Nparam Aparam dev Npts uCo vCo Vis Sigma k in
  let r := walkers junk rank Nchain Nparam Aparam dev Npts uCo vCo Vis Sigma in
  w_accept (state 0%nat) = 0%Z
  ∧ (∀ k, (w_accept (state k) ≤ w_accept (state (S k)) ≤ w_accept (state k) + 1)%Z)
  ∧ (0 ≤ w_accept (state (Z.to_nat Nchain)) ≤ Nchain)%Z
  ∧ acceptance r
    = double_of_int (w_accept (state (Z.to_nat Nchain))) / (1.0 * double_of_int Nchain)
  ∧ (0 <=? acceptance r) = true ∧ (acceptance r <=? 1) = true.
Proof.
  intros HN state r.
  pose proof (accept_bounds Nparam dev Npts uCo vCo Vis Sigma junk rank Nchain Aparam
                (Z.to_nat Nchain)) as Hacc.
  assert (acceptance r
          = double_of_int (w_accept (state (Z.to_nat Nchain))) / (1.0 * double_of_int Nchain))
    as Hr by (unfold r; by rewrite walkers_eq).
  split; [done|]. split; [|split; [|split]].
  - intros k. unfold state.
    rewrite (accept_step Nparam dev Npts uCo vCo Vis Sigma junk rank Nchain Aparam k).
    destruct (accepted _ _ _ _ _ _ _ _); lia.
  - unfold state. lia.
  - exact Hr.
  - rewrite Hr. apply ratio_bounds; unfold state; lia.
Qed.


Lemma draw01_skip mt : (draw01 mt).2 = skip_draws 1 mt.
Proof. unfold draw01, skip_draws. simpl. by destruct (randomMT mt). Qed.

Lemma skip_draws_add j k mt : skip_draws j (skip_draws k mt) = skip_draws (j + k) mt.
Proof. unfold skip_draws. by rewrite Nat.iter_add. Qed.

Lemma gauss_skip sigma mt : (gauss sigma mt).2 = skip_draws 2 mt.
Proof.
  unfold gauss.
  destruct (draw01 mt) as [y1 mt1] eqn:E1.
  destruct (draw01 mt1) as [y2 mt2] eqn:E2. cbn [snd].
  change 2%nat with (1 + 1)%nat.
  rewrite <- skip_draws_add, <- (draw01_skip mt), E1. cbn [snd].
  by rewrite <- (draw01_skip mt1), E2.
Qed.

Lemma propose_skip A apo mt :
  (propose Nparam dev A (apo, mt)).2 = skip_draws (2 * n) mt.
Proof.
  unfold propose. rewrite for_upto_count.
  induction n as [|k IH]; [done|].
  rewrite for_loop_snoc. unfold propose_body at 1.
  destruct (gauss _ _) as [g mt'] eqn:Eg. cbn [snd].
  apply (f_equal snd) in Eg. rewrite gauss_skip in Eg. cbn [snd] in Eg. subst mt'.
  rewrite IH, skip_draws_add. f_equal. lia.
Qed.

Lemma mt_step k :
  w_mt (after (S k)) = skip_draws (2 * n + 1) (w_mt (after k)).
Proof.
  unfold walkers_after, walk_upto. rewrite for_loop_snoc, walk_body_eq. simpl.
  rewrite draw01_skip, propose_skip, skip_draws_add. f_equal. lia.
Qed.

(** X4: an iteration takes [2*Nparam + 1] numbers from the random series,
    whether it accepts or rejects: after [k] iterations the generator, seeded
    with [SEEDNO + rank], has given [k * (2*Nparam + 1)] draws. *)
Theorem draws_per_iteration k :
  w_mt (walkers_after junk rank Nchain Nparam Aparam dev Npts uCo vCo Vis Sigma k)
  = skip_draws (k * (2 * Z.to_nat Nparam + 1)) (seedMT ((SEEDNO + rank) mod 2 ^ 32)).
Proof.
  induction k as [|k IH]; [done|].
  rewrite mt_step, IH, skip_draws_add. f_equal.
Qed.

Lemma drop_copy_params src dst :
  drop n (copy_params Nparam src dst) = drop n dst.
Proof.
  unfold copy_params. rewrite for_upto_count.
  assert (∀ k, (k ≤ n)%nat →
    drop n (for_loop k 1 (λ iparam d, store d (iparam - 1) src.[(iparam - 1)%Z]) dst)
    = drop n dst) as H; [|by apply H].
  induction k as [|k IH]; intros Hk; [done|].
  rewrite for_loop_snoc. unfold store at 1. rewrite drop_insert_lt by lia. apply IH. lia.
Qed.

Lemma tail_step k : drop n (w_Aparam (after (S k))) = drop n (w_Aparam (after k)).
Proof.
  unfold walkers_after, walk_upto. rewrite for_loop_snoc, walk_body_eq. simpl.
  destruct (accepted _ _ _ _ _ _ _ _); [apply drop_copy_params | done].
Qed.

(** X5: [walkers] writes only the first [Nparam] cells of the caller's
    array [Aparam]: the cells from [Nparam] on and the length of the array
    are on return what they were at the call. *)
Theorem walkers_keeps_array_tail :
  drop (Z.to_nat Nparam)
       (Aparam_out (walkers junk rank Nchain Nparam Aparam dev Npts uCo vCo Vis Sigma))
  = drop (Z.to_nat Nparam) Aparam
  ∧ length (Aparam_out (walkers junk rank Nchain Nparam Aparam dev Npts uCo vCo Vis Sigma))
    = length Aparam.
Proof.
  rewrite walkers_eq. simpl.
  rewrite drop_copy_params, length_copy_params. split.
  - induction (Z.to_nat Nchain) as [|k IH]; [done|]. by rewrite tail_step.
  - induction (Z.to_nat Nchain) as [|k IH]; [done|].
    unfold walkers_after, walk_upto in *. rewrite for_loop_snoc, walk_body_eq. simpl.
    destruct (accepted _ _ _ _ _ _ _ _); [by rewrite length_copy_params | done].
Qed.

Lemma rejected_step k :
  accepted Nparam dev Npts uCo vCo Vis Sigma (after k) = false →
  w_Aparam (after (S k)) = w_Aparam (after k)
  ∧ w_accept (after (S k)) = w_accept (after k)
  ∧ w_postMax (after (S k)) = w_postMax (after k)
  ∧ w_AparamMax (after (S k)) = w_AparamMax (after k).
Proof.
  intros Hrej. unfold walkers_after, walk_upto in *.
  rewrite for_loop_snoc, walk_body_eq. simpl. unfold new_max. by rewrite Hrej.
Qed.

(** X7: a candidate whose posterior is NaN is rejected: the iteration
    leaves [Aparam], the counter [accept] and the MAP state as they were,
    and records the unchanged vector. *)
Theorem nan_candidate_is_rejected k :
  let state k := walkers_after junk rank Nchain Nparam Aparam dev Npts uCo vCo Vis Sigma k in
  (Z.to_nat Nparam ≤ length Aparam)%nat → (k < Z.to_nat Nchain)%nat →
  probpost_of Nparam dev Npts uCo vCo Vis Sigma (state k) = nan →
  accepted Nparam dev Npts uCo vCo Vis Sigma (state k) = false
  ∧ w_Aparam (state (S k)) = w_Aparam (state k)
  ∧ w_accept (state (S k)) = w_accept (state k)
  ∧ w_postMax (state (S k)) = w_postMax (state k)
  ∧ w_AparamMax (state (S k)) = w_AparamMax (state k)
  ∧ w_chains (state (S k)) !! k = Some (take (Z.to_nat Nparam) (w_Aparam (state k))).
Proof.
  intros state HA Hk Hnan.
  assert (accepted Nparam dev Npts uCo vCo Vis Sigma (state k) = false) as Hrej.
  { destruct (accepted _ _ _ _ _ _ _ _) eqn:E; [|done].
    by apply accepted_not_nan in E. }
  split; [done|].
  destruct (rejected_step k Hrej) as (HAp & Hacc & HpM & HAM).
  repeat (split; [done|]).
  unfold state. rewrite (chains_after _ _ _ _ _ _ _ _ _ _ _ (S k) k) by (done || lia).
  by rewrite HAp.
Qed.

(** X9: every iteration compares the posterior of its candidate with the
    posterior of the initial parameter vector plus [log] of its draw: the
    bound of the test does not follow the accepted candidates. *)
Theorem acceptance_test_uses_initial_posterior k :
  let state := walkers_after junk rank Nchain Nparam Aparam dev Npts uCo vCo Vis Sigma k in
  w_probpre state = post Nparam Aparam Npts uCo vCo Vis Sigma
  ∧ accepted Nparam dev Npts uCo vCo Vis Sigma state
    = geb (post Nparam (candidate Nparam dev state) Npts uCo vCo Vis Sigma)
          (post Nparam Aparam Npts uCo vCo Vis Sigma + log (probRandom_of Nparam dev state)).
Proof.
  intros state. split; [apply probpre_after|]. unfold state. by rewrite accepted_after.
Qed.

Lemma nan_initial_rejects k :
  post Nparam Aparam Npts uCo vCo Vis Sigma = nan →
  accepted Nparam dev Npts uCo vCo Vis Sigma (after k) = false.
Proof.
  intros Hnan. rewrite accepted_after, Hnan, add_nan_l. unfold geb. apply leb_nan_l.
Qed.

Lemma nan_initial_state k :
  post Nparam Aparam Npts uCo vCo Vis Sigma = nan →
  w_Aparam (after k) = Aparam ∧ w_accept (after k) = 0%Z
  ∧ w_postMax (after k) = sentinel.
Proof.
  intros Hnan. induction k as [|k (IH1 & IH2 & IH3)]; [done|].
  destruct (rejected_step k (nan_initial_rejects k Hnan)) as (-> & -> & -> & _). done.
Qed.

(** X6: when the posterior of the initial parameter vector is NaN no
    candidate is ever accepted: the counter stays 0, [*postMax] stays the
    sentinel, and every row of the chain record is the initial vector. *)
Theorem nan_initial_posterior_freezes_chain :
  post Nparam Aparam Npts uCo vCo Vis Sigma = nan →
  (Z.to_nat Nparam ≤ length Aparam)%nat →
  let r := walkers junk rank Nchain Nparam Aparam dev Npts uCo vCo Vis Sigma in
  (∀ k, accepted Nparam dev Npts uCo vCo Vis Sigma
          (walkers_after junk rank Nchain Nparam Aparam dev Npts uCo vCo Vis Sigma k) = false)
  ∧ postMax_out r = sentinel
  ∧ (∀ i, (i < Z.to_nat Nchain)%nat →
          chain_rows r !! i = Some (take (Z.to_nat Nparam) Aparam)).
Proof.
  intros Hnan HA r. split; [intros k; by apply nan_initial_rejects|].
  unfold r. rewrite walkers_eq. simpl. split.
  - by apply nan_initial_state.
  - intros i Hi. rewrite chains_after by (done || lia).
    by destruct (nan_initial_state (S i) Hnan) as (-> & _).
Qed.
End MoreRuns.

Section MoreSamplerRuns.
Import Reference.
#[local] Existing Instance Reference.libm.
Open Scope float_scope.

Lemma acceptance_count_and_ratio_witness :
  (1 ≤ 2 ≤ 2147483647)%Z
  ∧ (0 ≤ w_accept (walkers_after (G := scripted draws_two_steps) sevens 0 2 6 Aparam0 dev0 1
                     uCo1 vCo1 Vis1 Sigma1 (Z.to_nat 2)) ≤ 2)%Z
  ∧ w_accept (walkers_after (G := scripted draws_two_steps) sevens 0 2 6 Aparam0 dev0 1
                uCo1 vCo1 Vis1 Sigma1 (Z.to_nat 2)) = 2%Z
  ∧ acceptance (walkers (G := scripted draws_two_steps) sevens 0 2 6 Aparam0 dev0 1
                  uCo1 vCo1 Vis1 Sigma1) = 1
  ∧ (acceptance (walkers (G := scripted draws_two_steps) sevens 0 2 6 Aparam0 dev0 1
                   uCo1 vCo1 Vis1 Sigma1) <=? 1) = true.
Proof.
  assert (1 ≤ 2 ≤ 2147483647)%Z as H by lia.
  split; [exact H|].
  destruct (acceptance_count_and_ratio (G := scripted draws_two_steps) 6 dev0 1
              uCo1 vCo1 Vis1 Sigma1 sevens 0 2 Aparam0 H)
    as (_ & _ & Hacc & _ & _ & Hle).
  split; [exact Hacc|]. split; [by vm_compute|]. split; [by vm_compute | exact Hle].
Defined.

Lemma acceptance_ratio_in_unit_interval_witness :
  (1 ≤ 2 ≤ 2147483647)%Z
  ∧ (0 <=? acceptance (walkers (G := scripted draws_two_steps) sevens 0 2 6 Aparam0 dev0 1
                         uCo1 vCo1 Vis1 Sigma1)) = true
  ∧ (acceptance (walkers (G := scripted draws_two_steps) sevens 0 2 6 Aparam0 dev0 1
                   uCo1 vCo1 Vis1 Sigma1) <=? 1) = true.
Proof.
  split; [lia|].
  apply (acceptance_ratio_in_unit_interval (G := scripted draws_two_steps) 6 dev0 1
           uCo1 vCo1 Vis1 Sigma1 sevens 0 2 Aparam0).
  lia.
Defined.


(** The first draw, 2147483648, is read as -2^31: the first step is NaN. *)
Lemma nan_candidate_is_rejected_witness :
  (Z.to_nat 6 ≤ length Aparam0)%nat ∧ (0 < Z.to_nat 1)%nat
  ∧ probpost_of (G := scripted [2147483648%Z]) 6 dev0 1 uCo1 vCo1 Vis1 Sigma1
      (walkers_after (G := scripted [2147483648%Z]) sevens 0 1 6 Aparam0 dev0 1
         uCo1 vCo1 Vis1 Sigma1 0) = nan
  ∧ accepted (G := scripted [2147483648%Z]) 6 dev0 1 uCo1 vCo1 Vis1 Sigma1
      (walkers_after (G := scripted [2147483648%Z]) sevens 0 1 6 Aparam0 dev0 1
         uCo1 vCo1 Vis1 Sigma1 0) = false
  ∧ w_Aparam (walkers_after (G := scripted [2147483648%Z]) sevens 0 1 6 Aparam0 dev0 1
                uCo1 vCo1 Vis1 Sigma1 1)
    = w_Aparam (walkers_after (G := scripted [2147483648%Z]) sevens 0 1 6 Aparam0 dev0 1
                  uCo1 vCo1 Vis1 Sigma1 0).
Proof.
  assert (Z.to_nat 6 ≤ length Aparam0)%nat as HA by (vm_compute; lia).
  assert (0 < Z.to_nat 1)%nat as Hk by (vm_compute; lia).
  assert (probpost_of (G := scripted [2147483648%Z]) 6 dev0 1 uCo1 vCo1 Vis1 Sigma1
            (walkers_after (G := scripted [2147483648%Z]) sevens 0 1 6 Aparam0 dev0 1
               uCo1 vCo1 Vis1 Sigma1 0) = nan) as Hnan by (by vm_compute).
  split; [exact HA|]. split; [exact Hk|]. split; [exact Hnan|].
  pose proof (nan_candidate_is_rejected (G := scripted [2147483648%Z]) 6 dev0 1 uCo1 vCo1 Vis1 Sigma1
                sevens 0 1 Aparam0 0 HA Hk Hnan) as (H1 & H2 & _).
  split; [exact H1 | exact H2].
Defined.

Lemma nan_initial_posterior_freezes_chain_witness :
  post 6 Aparam_negative_flux 1 uCo1 vCo1 Vis1 Sigma1 = nan
  ∧ (Z.to_nat 6 ≤ length Aparam_negative_flux)%nat
  ∧ postMax_out (walkers (G := scripted []) sevens 0 3 6 Aparam_negative_flux dev0 1
                   uCo1 vCo1 Vis1 Sigma1) = sentinel
  ∧ chain_rows (walkers (G := scripted []) sevens 0 3 6 Aparam_negative_flux dev0 1
                  uCo1 vCo1 Vis1 Sigma1) !! 2%nat
    = Some (take (Z.to_nat 6) Aparam_negative_flux).
Proof.
  assert (Z.to_nat 6 ≤ length Aparam_negative_flux)%nat as HA by (vm_compute; lia).
  assert (post 6 Aparam_negative_flux 1 uCo1 vCo1 Vis1 Sigma1 = nan) as Hnan
    by (by vm_compute).
  split; [exact Hnan|]. split; [exact HA|].
  pose proof (nan_initial_posterior_freezes_chain (G := scripted []) 6 dev0 1
                uCo1 vCo1 Vis1 Sigma1 sevens 0 3 Aparam_negative_flux Hnan HA)
    as (_ & H2 & H3).
  split; [exact H2|]. apply H3. vm_compute. lia.
Defined.
End MoreSamplerRuns.

(** ** The rank-ordered chain writer *)

Section ListFacts.
Context {A B : Type}.

Lemma imap_insert (f : nat → A → B) (l : list A) i x :
  imap f (<[i := x]> l) = <[i := f i x]> (imap f l).
Proof.
  apply list_eq. intros j. rewrite list_lookup_imap.
  destruct (decide (i = j)) as [->|Hne].
  - destruct (decide (j < length l)%nat) as [Hj|Hj].
    + rewrite !list_lookup_insert_eq by (by rewrite ?length_imap). done.
    + rewrite !list_insert_ge by (rewrite ?length_imap; lia).
      by rewrite list_lookup_imap.
  - rewrite !list_lookup_insert_ne by done. by rewrite list_lookup_imap.
Qed.

Lemma concat_all_nil (bs : list (list A)) :
  (∀ q b, bs !! q = Some b → b = []) → concat bs = [].
Proof.
  induction bs as [|b bs IH]; intros H; [done|]. simpl.
  rewrite (H 0%nat b) by done. apply IH. intros q b' Hq. by apply (H (S q)).
Qed.

Lemma concat_insert_snoc (bs : list (list A)) p b x :
  bs !! p = Some b →
  (∀ q b', (p < q)%nat → bs !! q = Some b' → b' = []) →
  concat (<[p := b ++ x]> bs) = concat bs ++ x.
Proof.
  intros Hp Hlater.
  rewrite insert_take_drop by by eapply lookup_lt_Some.
  rewrite <- (take_drop_middle bs p b Hp) at 3.
  rewrite !concat_app. simpl.
  assert (concat (drop (S p) bs) = []) as ->.
  { apply concat_all_nil. intros q b'. rewrite lookup_drop. apply Hlater. lia. }
  by rewrite !app_nil_r, app_assoc.
Qed.

Lemma concat_mjoin (bs : list (list A)) : concat bs = mjoin bs.
Proof. induction bs as [|b bs IH]; [done|]. simpl. by rewrite IH. Qed.

(** Blocks of [L] rows each, laid end to end. *)
Lemma concat_same_length `{!Inhabited (list A)} (bs : list (list A)) L :
  Forall (λ b, length b = L) bs →
  length (concat bs) = (length bs * L)%nat
  ∧ ∀ r j, (r < length bs)%nat → (j < L)%nat →
           concat bs !! (r * L + j)%nat = (bs !!! r) !! j.
Proof.
  intros HL. rewrite concat_mjoin. split.
  - by rewrite length_join, (sum_list_fmap_same L).
  - intros r j Hr Hj.
    destruct ((bs !!! r) !! j) as [x|] eqn:Hx.
    + apply (join_lookup_Some_same_length' L); [done..|].
      exists (bs !!! r). split; [|done]. by apply list_lookup_lookup_total_lt.
    + apply lookup_ge_None in Hx.
      rewrite Forall_lookup in HL.
      rewrite (HL r (bs !!! r)) in Hx by (by apply list_lookup_lookup_total_lt). lia.
Qed.
End ListFacts.

Section Writer.
Variable blocks : list (list (list float)).
Variable old : list (list float).

#[local] Abbreviation sz := (length blocks).

#[local] Abbreviation winv := (world_inv blocks old).

Lemma left_entered c : (barriers_left c ≤ barriers_entered c ≤ S (barriers_left c))%nat.
Proof. destruct c; simpl; lia. Qed.

Lemma world_inv_init : winv (world_init sz old).
Proof.
  split; simpl.
  - apply length_replicate.
  - by intros p c [-> _]%lookup_replicate.
  - intros p q cp cq [-> _]%lookup_replicate [-> _]%lookup_replicate. done.
  - assert (emptied (replicate sz Sampling) = false) as ->.
    { unfold emptied. by destruct (replicate sz Sampling !! 0%nat) as [c|] eqn:E;
        [apply lookup_replicate in E as [-> _]|]. }
    rewrite concat_all_nil; [by rewrite app_nil_r|].
    intros q b. rewrite list_lookup_imap.
    destruct (replicate sz Sampling !! q) as [c|] eqn:E; [|done].
    apply lookup_replicate in E as [-> _]. simpl. by intros [= <-].
Qed.

(** While the process of rank [p] has not entered the barrier of its own
    turn, the processes of higher rank have written nothing. *)
Lemma later_rank_silent w p q cp c :
  winv w → procs w !! p = Some cp → (barriers_entered cp ≤ p)%nat →
  procs w !! q = Some c → (p < q)%nat → written blocks q c = [].
Proof.
  intros Hw Hp Hcp Hq Hpq.
  pose proof (inv_sync w Hw q p _ _ Hq Hp) as Hs.
  pose proof (inv_fits w Hw q _ Hq) as Hf.
  destruct c as [|r'|r' k'|r'|r']; simpl in *; try done; try lia.
  all: match goal with |- context [(?a <? ?b)%nat] => destruct (Nat.ltb_spec a b) end;
    done || lia.
Qed.

(** A change of place of the process [p] that keeps the invariant. *)
Lemma world_inv_update w p c c' f' b :
  winv w → procs w !! p = Some c →
  place_fits blocks p c' →
  (barriers_entered c ≤ barriers_entered c')%nat →
  (barriers_left c' ≤ barriers_entered c')%nat →
  (∀ q cq, q ≠ p → procs w !! q = Some cq → barriers_left c' ≤ barriers_entered cq)%nat →
  f' = (if emptied (<[p := c']> (procs w)) then [] else old)
       ++ concat (imap (written blocks) (<[p := c']> (procs w))) →
  winv {| procs := <[p := c']> (procs w); file := f'; aborted := b |}.
Proof.
  intros Hw Hp Hfit Hent Hself Hothers Hfile. split; simpl.
  - rewrite length_insert. apply Hw.
  - intros q cq [(-> & <- & _)|[_ Hq]]%list_lookup_insert_Some; [done|].
    by apply (inv_fits w Hw).
  - intros q1 q2 c1 c2 H1 H2.
    apply list_lookup_insert_Some in H1 as [(-> & <- & _)|[Hne1 H1]];
      apply list_lookup_insert_Some in H2 as [(E2 & <- & _)|[Hne2 H2]].
    + done.
    + by apply (Hothers q2).
    + subst q2. pose proof (inv_sync w Hw q1 p _ _ H1 Hp). lia.
    + by apply (inv_sync w Hw q1 q2).
  - exact Hfile.
Qed.

Lemma emptied_insert ps p c' :
  (p < length ps)%nat →
  emptied (<[p := c']> ps)
  = if decide (p = 0%nat) then
      match c' with Writing _ _ => true | _ => (0 <? barriers_entered c')%nat end
    else emptied ps.
Proof.
  intros Hp. unfold emptied. destruct (decide (p = 0%nat)) as [->|Hne].
  - by rewrite list_lookup_insert_eq.
  - by rewrite list_lookup_insert_ne.
Qed.

(** A move that changes neither what the process has written nor whether
    the file has been emptied. *)
Lemma world_inv_move w p c c' :
  winv w → procs w !! p = Some c →
  place_fits blocks p c' →
  (barriers_entered c ≤ barriers_entered c')%nat →
  (barriers_left c' ≤ barriers_entered c')%nat →
  (∀ q cq, q ≠ p → procs w !! q = Some cq → barriers_left c' ≤ barriers_entered cq)%nat →
  written blocks p c' = written blocks p c →
  (p = 0%nat →
   match c' with Writing _ _ => true | _ => (0 <? barriers_entered c')%nat end
   = match c with Writing _ _ => true | _ => (0 <? barriers_entered c)%nat end) →
  winv (move p c' w).
Proof.
  intros Hw Hp Hfit Hent Hself Hothers Hwr Hem.
  apply (world_inv_update w p c); try done.
  pose proof (lookup_lt_Some _ _ _ Hp) as Hlt.
  rewrite imap_insert, Hwr.
  rewrite (list_insert_id (imap _ _)) by (by rewrite list_lookup_imap, Hp).
  rewrite emptied_insert by done.
  destruct (decide (p = 0%nat)) as [->|]; [|apply Hw].
  rewrite Hem by done. rewrite (inv_file w Hw). unfold emptied. by rewrite Hp.
Qed.

Lemma all_entered_lookup r ps q c :
  all_entered r ps = true → ps !! q = Some c → (S r ≤ barriers_entered c)%nat.
Proof.
  unfold all_entered. rewrite forallb_forall. intros H Hq.
  specialize (H c). rewrite <- list_elem_of_In in H.
  specialize (H (list_elem_of_lookup_2 _ _ _ Hq)). apply Nat.ltb_lt in H. lia.
Qed.

#[local] Ltac use_sync Hw Hp :=
  intros;
  match goal with
  | Hq : procs _ !! ?q = Some ?cq |- (_ <= barriers_entered ?cq)%nat =>
      exact (inv_sync _ Hw _ q _ _ Hp Hq)
  end.

(** Every step keeps the invariant. *)
Lemma world_inv_step w w' p ok :
  winv w → proc_step blocks p ok w = Some w' → winv w'.
Proof.
  intros Hw. unfold proc_step.
  destruct (aborted w) eqn:Hab; [done|].
  destruct (procs w !! p) as [c|] eqn:Hp; [|done].
  pose proof (lookup_lt_Some _ _ _ Hp) as Hlt.
  pose proof (inv_size w Hw) as Hsz.
  pose proof (inv_fits w Hw p c Hp) as Hfit.
  destruct c as [|r|r k|r|r]; simpl in Hfit.
  - (* sampling is over *)
    intros [= <-]. apply (world_inv_move w p Sampling);
      simpl; try done; try lia; use_sync Hw Hp.
  - destruct (Nat.leb_spec (length (procs w)) r) as [Hr|Hr].
    { (* the loop is left *)
      intros [= <-]. apply (world_inv_move w p (Turn r));
        simpl; try done; try lia; use_sync Hw Hp. }
    destruct (Nat.eqb_spec r p) as [->|Hne].
    + destruct ok.
      * (* fopen *)
        intros [= <-]. apply (world_inv_update w p (Turn p));
          simpl; try done; try lia; try use_sync Hw Hp.
        rewrite imap_insert. simpl written at 1. rewrite take_0.
        rewrite (list_insert_id (imap _ _)).
        2:{ rewrite list_lookup_imap, Hp. simpl. by rewrite Nat.ltb_irrefl. }
        rewrite emptied_insert by done.
        destruct (decide (p = 0%nat)) as [->|Hp0].
        -- simpl. symmetry. apply concat_all_nil. intros q b.
           rewrite list_lookup_imap.
           destruct (procs w !! q) as [cq|] eqn:Hq; [|done]. simpl. intros [= <-].
           destruct (decide (q = 0%nat)) as [->|Hq0].
           ++ rewrite Hp in Hq. by injection Hq as <-.
           ++ apply (later_rank_silent w 0%nat q (Turn 0)); try done. lia.
        -- destruct (Nat.eqb_spec p 0); [done|]. apply Hw.
      * (* fopen fails: MPI_Abort *)
        intros [= <-]. by destruct Hw.
    + (* not the turn of this rank *)
      intros [= <-]. apply (world_inv_move w p (Turn r));
        simpl; try done; try lia; try use_sync Hw Hp.
      * destruct (Nat.ltb_spec p r), (Nat.ltb_spec p (S r)); try done; lia.
      * intros ->. by destruct r.
  - destruct Hfit as [-> Hk].
    destruct ((blocks !!! p) !! k) as [row|] eqn:Hrow.
    + (* a row is written *)
      intros [= <-]. apply (world_inv_update w p (Writing p k));
        simpl; try done; try lia; try use_sync Hw Hp.
      { split; [done|]. by apply lookup_lt_Some in Hrow. }
      rewrite imap_insert. simpl written at 1.
      rewrite (take_S_r _ _ _ Hrow).
      rewrite (concat_insert_snoc _ p (take k (blocks !!! p))).
      2:{ by rewrite list_lookup_imap, Hp. }
      2:{ intros q b Hpq. rewrite list_lookup_imap.
          destruct (procs w !! q) as [cq|] eqn:Hq; [|done]. simpl. intros [= <-].
          apply (later_rank_silent w p q (Writing p k)); try done. }
      rewrite emptied_insert by done.
      rewrite (inv_file w Hw), <- app_assoc. f_equal.
      destruct (decide (p = 0%nat)) as [->|]; [|done].
      unfold emptied. by rewrite Hp.
    + (* fclose *)
      intros [= <-]. apply lookup_ge_None in Hrow.
      apply (world_inv_move w p (Writing p k));
        simpl; try done; try lia; try use_sync Hw Hp.
      rewrite take_ge by done.
      destruct (Nat.ltb_spec p (S p)); [done | lia].
  - destruct (all_entered r (procs w)) eqn:Hall; [|done].
    (* the barrier is left *)
    intros [= <-]. apply (world_inv_move w p (AtBarrier r));
      simpl; try done; try lia.
    intros q cq _ Hq. by apply (all_entered_lookup r (procs w) q).
  - done.
Qed.

Lemma world_inv_reachable w :
  rtc (world_step blocks) (world_init sz old) w → winv w.
Proof.
  revert w. apply (rtc_ind_r (λ w, winv w)); [apply world_inv_init|].
  intros w1 w2 _ (p & ok & Hstep) IH. by eapply world_inv_step.
Qed.

Lemma emptied_by_later_rank w p c :
  winv w → procs w !! p = Some c →
  (0 < barriers_left c)%nat ∨ (∃ r k, c = Writing r k) →
  emptied (procs w) = true.
Proof.
  intros Hw Hp Hc. unfold emptied.
  assert (0 < length (procs w))%nat as H0 by (apply lookup_lt_Some in Hp; lia).
  destruct (lookup_lt_is_Some_2 _ _ H0) as [c0 Hc0]. rewrite Hc0.
  destruct (decide (p = 0%nat)) as [->|Hne].
  { rewrite Hp in Hc0. injection Hc0 as <-.
    destruct Hc as [Hc|(r & k & ->)]; [|done].
    pose proof (left_entered c). destruct c; try done; apply Nat.ltb_lt; lia. }
  assert (0 < barriers_left c)%nat as Hl.
  { destruct Hc as [Hc|(r & k & ->)]; [done|].
    pose proof (inv_fits w Hw p _ Hp) as [-> _]. simpl. lia. }
  pose proof (inv_sync w Hw p 0%nat _ _ Hp Hc0).
  destruct c0; try done; apply Nat.ltb_lt; lia.
Qed.

(** The processes of lower rank than a writer have written their blocks. *)
Lemma earlier_rank_complete w p q r k c :
  winv w → procs w !! p = Some (Writing r k) → procs w !! q = Some c →
  (q < p)%nat → written blocks q c = blocks !!! q.
Proof.
  intros Hw Hp Hq Hqp.
  pose proof (inv_fits w Hw p _ Hp) as [-> _].
  pose proof (inv_sync w Hw p q _ _ Hp Hq) as Hs. simpl in Hs.
  pose proof (inv_fits w Hw q _ Hq) as Hf.
  destruct c as [|r'|r' k'|r'|r']; simpl in *; try lia.
  all: match goal with |- context [(?a <? ?b)%nat] => destruct (Nat.ltb_spec a b) end;
    done || lia.
Qed.

(** What the file holds while the process of rank [p] writes. *)
Lemma file_of_writer w p r k :
  winv w → procs w !! p = Some (Writing r k) →
  file w = concat (take p blocks) ++ take k (blocks !!! p).
Proof.
  intros Hw Hp. rewrite (inv_file w Hw).
  rewrite (emptied_by_later_rank w p _ Hw Hp) by (right; eauto). simpl.
  pose proof (lookup_lt_Some _ _ _ Hp) as Hlt.
  pose proof (inv_size w Hw) as Hsz.
  assert (imap (written blocks) (procs w)
          = take p blocks ++ take k (blocks !!! p)
            :: drop (S p) (imap (written blocks) (procs w))) as ->.
  { rewrite <- (take_drop_middle (imap (written blocks) (procs w)) p
                  (take k (blocks !!! p))) at 1
      by (by rewrite list_lookup_imap, Hp).
    f_equal. apply list_eq. intros q.
    destruct (decide (q < p)%nat) as [Hq|Hq].
    - rewrite !lookup_take_lt by done. rewrite list_lookup_imap.
      destruct (lookup_lt_is_Some_2 (procs w) q ltac:(lia)) as [cq Hcq].
      rewrite Hcq. simpl. rewrite (earlier_rank_complete w p q r k cq) by done.
      symmetry. apply list_lookup_lookup_total_lt. lia.
    - by rewrite !lookup_take_ge by lia. }
  rewrite concat_app. simpl. f_equal.
  rewrite (concat_all_nil (drop _ _)); [by rewrite app_nil_r|].
  intros q b. rewrite lookup_drop, list_lookup_imap.
  destruct (procs w !! (S p + q)%nat) as [cq|] eqn:Hcq; [|done]. simpl. intros [= <-].
  pose proof (inv_fits w Hw p _ Hp) as [-> _].
  apply (later_rank_silent w p (S p + q) (Writing p k)); try done. lia.
Qed.

(** X11: at every moment of every run at most one process has the chain file
    open, and while the process of rank [p] has written [k] rows the file
    holds the whole blocks of the ranks below [p], in rank order, followed
    by these [k] rows: no row of another process lies between them. *)
Theorem writer_is_alone w p q r k r' k' :
  rtc (world_step blocks) (world_init (length blocks) old) w →
  procs w !! p = Some (Writing r k) → procs w !! q = Some (Writing r' k') →
  p = q ∧ file w = concat (take p blocks) ++ take k (blocks !!! p).
Proof.
  intros Hw%world_inv_reachable Hp Hq. split; [|by eapply file_of_writer].
  pose proof (inv_fits w Hw p _ Hp) as [-> _].
  pose proof (inv_fits w Hw q _ Hq) as [-> _].
  pose proof (inv_sync w Hw p q _ _ Hp Hq).
  pose proof (inv_sync w Hw q p _ _ Hq Hp). simpl in *. lia.
Qed.

(** The file when every process has left the loop. *)
Lemma final_file w :
  (1 ≤ length blocks)%nat →
  rtc (world_step blocks) (world_init (length blocks) old) w →
  (∀ p c, procs w !! p = Some c → ∃ r, c = Finished r) →
  file w = concat blocks
  ∧ ∀ p c, procs w !! p = Some c → c = Finished (length blocks).
Proof.
  intros Hsz Hw%world_inv_reachable Hfin.
  assert (∀ p c, procs w !! p = Some c → c = Finished sz) as Hfin'.
  { intros p c Hp. destruct (Hfin p c Hp) as [r ->].
    by rewrite (inv_fits w Hw p _ Hp). }
  split; [|done].
  rewrite (inv_file w Hw).
  destruct (lookup_lt_is_Some_2 (procs w) 0) as [c0 Hc0];
    [rewrite (inv_size w Hw); lia|].
  rewrite (emptied_by_later_rank w 0 c0 Hw Hc0).
  2:{ left. rewrite (Hfin' _ _ Hc0). simpl. lia. }
  simpl. f_equal. apply list_eq. intros q. rewrite list_lookup_imap.
  destruct (procs w !! q) as [cq|] eqn:Hq; simpl.
  - rewrite (Hfin' _ _ Hq). simpl.
    apply lookup_lt_Some in Hq. rewrite (inv_size w Hw) in Hq.
    destruct (Nat.ltb_spec q sz); [|lia].
    symmetry. by apply list_lookup_lookup_total_lt.
  - apply lookup_ge_None in Hq. rewrite (inv_size w Hw) in Hq.
    symmetry. by apply lookup_ge_None.
Qed.

(** X10: when every process has left the loop, whatever the order of their
    steps has been, the chain file holds the blocks of all ranks in rank
    order and nothing else, and every process has been through exactly
    [sz] barriers; with blocks of [L] rows each the file has [sz * L] rows
    and row [r * L + j] is row [j] of rank [r]. *)
Theorem writer_rank_order w :
  (1 ≤ length blocks)%nat →
  rtc (world_step blocks) (world_init (length blocks) old) w →
  (∀ p c, procs w !! p = Some c → ∃ r, c = Finished r) →
  file w = concat blocks
  ∧ (∀ p c, procs w !! p = Some c →
            c = Finished (length blocks) ∧ barriers_left c = length blocks)
  ∧ ∀ L, Forall (λ b, length b = L) blocks →
         length (file w) = (length blocks * L)%nat
         ∧ ∀ r j, (r < length blocks)%nat → (j < L)%nat →
                  file w !! (r * L + j)%nat = (blocks !!! r) !! j.
Proof.
  intros Hsz Hreach Hfin.
  destruct (final_file w Hsz Hreach Hfin) as [Hfile Hplaces].
  split; [done|]. split.
  - intros p c Hp. by rewrite (Hplaces p c Hp).
  - intros L HL. rewrite Hfile. by apply concat_same_length.
Qed.

(** C9: [sz] processes whose chains have [L] rows each.  In every run,
    whatever the order in which the processes move, a process writes only
    at the turn of its own rank and with the complete blocks of the lower
    ranks, and nothing else, before its rows in the file; when all
    processes have left the loop the file has [sz * L] rows, row
    [r * L + j] is row [j] of rank [r], what the file held before the run
    is gone, and every process has passed [sz] barriers, one for each
    turn. *)
Theorem chain_file_in_rank_order L w :
  (1 ≤ length blocks)%nat → Forall (λ b, length b = L) blocks →
  rtc (world_step blocks) (world_init (length blocks) old) w →
  (∀ p r k, procs w !! p = Some (Writing r k) →
            r = p ∧ file w = concat (take p blocks) ++ take k (blocks !!! p))
  ∧ ((∀ p c, procs w !! p = Some c → ∃ r, c = Finished r) →
     length (file w) = (length blocks * L)%nat
     ∧ (∀ r j, (r < length blocks)%nat → (j < L)%nat →
               file w !! (r * L + j)%nat = (blocks !!! r) !! j)
     ∧ ∀ p c, procs w !! p = Some c → barriers_left c = length blocks).
Proof.
  intros Hsz HL Hreach. pose proof (world_inv_reachable w Hreach) as Hw. split.
  - intros p r k Hp. pose proof (inv_fits w Hw p _ Hp) as [-> _].
    split; [done | by eapply file_of_writer].
  - intros Hfin. destruct (final_file w Hsz Hreach Hfin) as [Hfile Hplaces].
    rewrite Hfile. destruct (concat_same_length blocks L HL) as [Hlen Hrow].
    split; [done|]. split; [done|].
    intros p c Hp. by rewrite (Hplaces p c Hp).
Qed.

Lemma forallb_false_lookup {A} (f : A → bool) (l : list A) :
  forallb f l = false → ∃ q c, l !! q = Some c ∧ f c = false.
Proof.
  induction l as [|x l IH]; [done|]. simpl.
  destruct (f x) eqn:E; simpl.
  - intros (q & c & Hq & Hc)%IH. by exists (S q), c.
  - intros _. by exists 0%nat, x.
Qed.

(** Among processes that all wait in a barrier or have finished, the one
    that waits in the earliest barrier can leave it. *)
Lemma earliest_barrier_opens w r :
  winv w →
  (∀ q c, procs w !! q = Some c → (∃ r', c = AtBarrier r') ∨ (∃ r', c = Finished r')) →
  ∀ p, procs w !! p = Some (AtBarrier r) →
  ∃ p' r', procs w !! p' = Some (AtBarrier r') ∧ all_entered r' (procs w) = true.
Proof.
  intros Hw Hall. induction r as [r IH] using lt_wf_ind. intros p Hp.
  destruct (all_entered r (procs w)) eqn:E; [by exists p, r|].
  apply forallb_false_lookup in E as (q & c & Hq & Hc).
  apply Nat.ltb_ge in Hc.
  pose proof (inv_fits w Hw p _ Hp) as Hr. simpl in Hr.
  destruct (Hall q c Hq) as [[r' ->]|[r' ->]].
  - simpl in Hc. apply (IH r' ltac:(lia) q Hq).
  - pose proof (inv_fits w Hw q _ Hq) as Hr'. simpl in *. lia.
Qed.

(** X12: a run that is not aborted cannot get stuck: as long as some process
    has not left the loop, some process can move when its [fopen]
    succeeds. *)
Theorem writer_never_deadlocks w :
  rtc (world_step blocks) (world_init (length blocks) old) w →
  aborted w = false →
  (∃ p c, procs w !! p = Some c ∧ ∀ r, c ≠ Finished r) →
  ∃ p w', proc_step blocks p true w = Some w'.
Proof.
  intros Hw%world_inv_reachable Hab (p & c & Hp & Hc).
  destruct (forallb (λ c, match c with AtBarrier _ | Finished _ => true | _ => false end)
              (procs w)) eqn:E.
  - assert (∀ q c, procs w !! q = Some c →
              (∃ r', c = AtBarrier r') ∨ (∃ r', c = Finished r')) as Hall.
    { rewrite forallb_forall in E. intros q cq Hq.
      specialize (E cq). rewrite <- list_elem_of_In in E.
      specialize (E (list_elem_of_lookup_2 _ _ _ Hq)).
      destruct cq; try done; eauto. }
    destruct (Hall p c Hp) as [[r ->]|[r ->]]; [|by destruct (Hc r)].
    destruct (earliest_barrier_opens w r Hw Hall p Hp) as (p' & r' & Hp' & Hopen).
    exists p'. unfold proc_step. rewrite Hab, Hp', Hopen. eauto.
  - apply forallb_false_lookup in E as (q & cq & Hq & Hcq).
    exists q. unfold proc_step. rewrite Hab, Hq.
    destruct cq as [|r|r k|r|r]; try done; eauto.
    + destruct (_ <=? _)%nat; eauto. destruct (_ =? _)%nat; eauto.
    + destruct (_ !! k); eauto.
Qed.

Lemma sum_list_insert (l : list nat) p x y :
  l !! p = Some x → (sum_list (<[p := y]> l) + x = sum_list l + y)%nat.
Proof.
  revert p. induction l as [|z l IH]; intros [|p] Hp; simplify_eq/=; [lia|].
  specialize (IH p Hp). lia.
Qed.

Lemma measure_move w p c c' f' :
  aborted w = false → procs w !! p = Some c →
  (S (steps_left blocks (length (procs w)) p c')
   = steps_left blocks (length (procs w)) p c)%nat →
  (world_measure blocks {| procs := <[p := c']> (procs w); file := f'; aborted := false |}
   < world_measure blocks w)%nat.
Proof.
  intros Hab Hp Hdec. unfold world_measure. simpl. rewrite Hab, length_insert.
  rewrite imap_insert.
  pose proof (sum_list_insert (imap (steps_left blocks (length (procs w))) (procs w)) p
                (steps_left blocks (length (procs w)) p c)
                (steps_left blocks (length (procs w)) p c')) as H.
  rewrite list_lookup_imap, Hp in H. specialize (H eq_refl). lia.
Qed.

(** Every step brings the end nearer. *)
Lemma measure_step w w' :
  world_step blocks w w' → (world_measure blocks w' < world_measure blocks w)%nat.
Proof.
  intros (p & ok & Hstep). unfold proc_step in Hstep.
  destruct (aborted w) eqn:Hab; [done|].
  destruct (procs w !! p) as [c|] eqn:Hp; [|done].
  pose proof (lookup_lt_Some _ _ _ Hp) as Hlt.
  destruct c as [|r|r k|r|r].
  - injection Hstep as <-. unfold move. rewrite Hab. by apply (measure_move w p Sampling).
  - destruct (Nat.leb_spec (length (procs w)) r) as [Hr|Hr].
    { injection Hstep as <-. unfold move. rewrite Hab.
      apply (measure_move w p (Turn r)); try done. simpl. unfold steps_from_turn.
      destruct (Nat.leb_spec r p), (Nat.ltb_spec p (length (procs w))); simpl; lia. }
    destruct (Nat.eqb_spec r p) as [->|Hne].
    + destruct ok; injection Hstep as <-.
      * apply (measure_move w p (Turn p)); try done. simpl. unfold steps_from_turn.
        destruct (Nat.leb_spec p p), (Nat.ltb_spec p (length (procs w))),
          (Nat.leb_spec (S p) p); simpl; lia.
      * unfold world_measure. simpl. rewrite Hab. lia.
    + injection Hstep as <-. unfold move. rewrite Hab.
      apply (measure_move w p (Turn r)); try done. simpl. unfold steps_from_turn.
      destruct (Nat.leb_spec r p), (Nat.leb_spec (S r) p),
        (Nat.ltb_spec p (length (procs w))); simpl; lia.
  - destruct ((blocks !!! p) !! k) as [row|] eqn:Hrow; injection Hstep as <-.
    + apply (measure_move w p (Writing r k)); try done. simpl.
      apply lookup_lt_Some in Hrow. lia.
    + unfold move. rewrite Hab. apply (measure_move w p (Writing r k)); try done. simpl.
      apply lookup_ge_None in Hrow. lia.
  - destruct (all_entered r (procs w)); [|done]. injection Hstep as <-.
    unfold move. rewrite Hab. by apply (measure_move w p (AtBarrier r)).
  - done.
Qed.

(** X13: every run is finite: a run of [n] steps from the start has
    [n] at most the measure of the start, which is
    [1 + sz * (2 * sz + 3)] plus the number of rows of all blocks. *)
Theorem writer_terminates n w :
  nsteps (world_step blocks) n (world_init (length blocks) old) w →
  (n + world_measure blocks w ≤ world_measure blocks (world_init (length blocks) old))%nat.
Proof.
  generalize (world_init sz old). intros w0 H.
  induction H as [|n x y z Hxy _ IH]; [lia|].
  apply measure_step in Hxy. lia.
Qed.

(** A schedule gives a run. *)
Lemma run_schedule_reachable sched w :
  rtc (world_step blocks) w (run_schedule blocks sched w).
Proof.
  revert w. induction sched as [|[p ok] sched IH]; intros w; simpl; [done|].
  destruct (proc_step blocks p ok w) as [w'|] eqn:E; [|apply IH].
  eapply rtc_l; [by exists p, ok | apply IH].
Qed.

Lemma run_schedule_nsteps sched w :
  nsteps (world_step blocks) (moves blocks sched w) w (run_schedule blocks sched w).
Proof.
  revert w. induction sched as [|[p ok] sched IH]; intros w; simpl; [constructor|].
  destruct (proc_step blocks p ok w) as [w'|] eqn:E; [|apply IH].
  eapply nsteps_l; [by exists p, ok | apply IH].
Qed.
End Writer.

(** ** The parallel run: sampling, then writing *)

Section ParallelRun.
Context {M : Libm} {G : MTgen}.
Variables (Nparam : Z) (dev : list float) (Npts : Z) (uCo vCo Vis Sigma : list float).
Variables (junk : nat → nat → float) (Nchain : Z) (Aparam : list float).
Variables (sz : nat) (old : list (list float)).

Lemma chain_rows_length rank :
  (Z.to_nat Nparam ≤ length Aparam)%nat →
  length (chain_rows (walkers (junk rank) (Z.of_nat rank) Nchain Nparam Aparam dev Npts
                        uCo vCo Vis Sigma)) = Z.to_nat Nchain.
Proof.
  intros HA. rewrite walkers_eq. simpl.
  apply (sized_chains _ _ _ (sized_after _ _ _ _ _ _ _ _ _ _ _ _ HA)).
Qed.

Lemma chain_rows_lookup rank i :
  (Z.to_nat Nparam ≤ length Aparam)%nat → (i < Z.to_nat Nchain)%nat →
  chain_rows (walkers (junk rank) (Z.of_nat rank) Nchain Nparam Aparam dev Npts
                uCo vCo Vis Sigma) !! i
  = Some (take (Z.to_nat Nparam)
            (w_Aparam (walkers_after (junk rank) (Z.of_nat rank) Nchain Nparam Aparam dev
                         Npts uCo vCo Vis Sigma (S i)))).
Proof. intros HA Hi. rewrite walkers_eq. simpl. apply chains_after; [done | lia | done]. Qed.

(** X14: [sz] processes run [walkers] on the same data with the seeds of
    their ranks.  When all have left the writer loop, in whatever order they
    have sampled and moved, the chain file has [sz * Nchain] rows, and row
    [r * Nchain + i] is the parameter vector of rank [r] after its
    iteration [i + 1]. *)
Theorem parallel_chain_file w :
  let blocks :=
    (λ r, chain_rows (walkers (junk r) (Z.of_nat r) Nchain Nparam Aparam dev Npts
                        uCo vCo Vis Sigma)) <$> seq 0 sz in
  (1 ≤ sz)%nat → (Z.to_nat Nparam ≤ length Aparam)%nat →
  rtc (world_step blocks) (world_init sz old) w →
  (∀ p c, procs w !! p = Some c → ∃ r, c = Finished r) →
  length (file w) = (sz * Z.to_nat Nchain)%nat
  ∧ ∀ r i, (r < sz)%nat → (i < Z.to_nat Nchain)%nat →
      file w !! (r * Z.to_nat Nchain + i)%nat
      = Some (take (Z.to_nat Nparam)
                (w_Aparam (walkers_after (junk r) (Z.of_nat r) Nchain Nparam Aparam dev
                             Npts uCo vCo Vis Sigma (S i)))).
Proof.
  intros blocks Hsz HA Hreach Hfin.
  assert (length blocks = sz) as Hlen by (unfold blocks; by rewrite length_fmap, length_seq).
  assert (∀ r, (r < sz)%nat →
            blocks !! r = Some (chain_rows (walkers (junk r) (Z.of_nat r) Nchain Nparam Aparam
                                              dev Npts uCo vCo Vis Sigma))) as Hblock.
  { intros r Hr. unfold blocks. rewrite list_lookup_fmap, lookup_seq_lt by done. done. }
  assert (Forall (λ b, length b = Z.to_nat Nchain) blocks) as HL.
  { apply Forall_lookup. intros r b Hb.
    assert (r < sz)%nat as Hr by (apply lookup_lt_Some in Hb; lia).
    rewrite (Hblock r Hr) in Hb. injection Hb as <-. by apply chain_rows_length. }
  rewrite <- Hlen in Hreach.
  destruct (final_file blocks old w ltac:(lia) Hreach Hfin) as [Hfile _].
  destruct (concat_same_length blocks _ HL) as [Hfl Hrow].
  rewrite Hfile, Hlen in *. split; [done|].
  intros r i Hr Hi. rewrite (Hrow r i Hr Hi).
  rewrite (list_lookup_total_correct _ _ _ (Hblock r Hr)).
  by apply chain_rows_lookup.
Qed.
End ParallelRun.

Section WriterRuns.

(** Two ranks with two rows each; rank 1 is ahead of rank 0 when the
    sampling ends. *)
Lemma chain_file_in_rank_order_witness :
  (1 ≤ length example_blocks)%nat ∧ Forall (λ b, length b = 2%nat) example_blocks
  ∧ length (file (run_schedule example_blocks example_schedule
                    (world_init (length example_blocks) example_old)))
    = (length example_blocks * 2)%nat
  ∧ file (run_schedule example_blocks example_schedule
            (world_init (length example_blocks) example_old)) !! (1 * 2 + 0)%nat
    = (example_blocks !!! 1%nat) !! 0%nat.
Proof.
  assert (1 ≤ length example_blocks)%nat as H1 by (vm_compute; lia).
  assert (Forall (λ b, length b = 2%nat) example_blocks) as HL
    by (repeat constructor).
  split; [exact H1|]. split; [exact HL|].
  destruct (chain_file_in_rank_order example_blocks example_old 2
              (run_schedule example_blocks example_schedule
                 (world_init (length example_blocks) example_old))
              H1 HL (run_schedule_reachable _ _ _)) as [_ Hend].
  destruct Hend as (Hlen & Hrow & _).
  { intros p c. vm_compute. destruct p as [|[|p]]; intros [= <-]; eauto. }
  split; [exact Hlen|]. apply Hrow; vm_compute; lia.
Defined.

Lemma writer_rank_order_witness :
  (1 ≤ length example_blocks)%nat
  ∧ file (run_schedule example_blocks example_schedule
            (world_init (length example_blocks) example_old))
    = concat example_blocks.
Proof.
  assert (1 ≤ length example_blocks)%nat as H1 by (vm_compute; lia).
  split; [exact H1|].
  apply (writer_rank_order example_blocks example_old
           (run_schedule example_blocks example_schedule
              (world_init (length example_blocks) example_old)) H1).
  - apply run_schedule_reachable.
  - intros p c. vm_compute. destruct p as [|[|p]]; intros [= <-]; eauto.
Defined.

Lemma writer_is_alone_witness :
  procs (run_schedule example_blocks example_schedule_mid
           (world_init (length example_blocks) example_old)) !! 1%nat
  = Some (Writing 1 1)
  ∧ file (run_schedule example_blocks example_schedule_mid
            (world_init (length example_blocks) example_old))
    = concat (take 1 example_blocks) ++ take 1 (example_blocks !!! 1%nat).
Proof.
  assert (procs (run_schedule example_blocks example_schedule_mid
                   (world_init (length example_blocks) example_old)) !! 1%nat
          = Some (Writing 1 1)) as Hp by (by vm_compute).
  split; [exact Hp|].
  apply (writer_is_alone example_blocks example_old _ 1%nat 1%nat 1%nat 1%nat 1%nat 1%nat
           (run_schedule_reachable _ _ _) Hp Hp).
Defined.

(** Rank 0 has written its rows and waits at the barrier of turn 1, where
    it cannot move; rank 1 is writing and can. *)
Lemma writer_never_deadlocks_witness :
  procs (run_schedule example_blocks example_schedule_mid
           (world_init (length example_blocks) example_old)) !! 0%nat
  = Some (AtBarrier 1)
  ∧ proc_step example_blocks 0 true
      (run_schedule example_blocks example_schedule_mid
         (world_init (length example_blocks) example_old)) = None
  ∧ aborted (run_schedule example_blocks example_schedule_mid
               (world_init (length example_blocks) example_old)) = false
  ∧ ∃ p w', proc_step example_blocks p true
              (run_schedule example_blocks example_schedule_mid
                 (world_init (length example_blocks) example_old)) = Some w'.
Proof.
  assert (procs (run_schedule example_blocks example_schedule_mid
                   (world_init (length example_blocks) example_old)) !! 0%nat
          = Some (AtBarrier 1)) as Hp by (by vm_compute).
  assert (aborted (run_schedule example_blocks example_schedule_mid
                     (world_init (length example_blocks) example_old)) = false)
    as Ha by (by vm_compute).
  split; [exact Hp|]. split; [by vm_compute|]. split; [exact Ha|].
  apply (writer_never_deadlocks example_blocks example_old
           (run_schedule example_blocks example_schedule_mid
              (world_init (length example_blocks) example_old))
           (run_schedule_reachable _ _ _) Ha).
  exists 0%nat, (AtBarrier 1). split; [exact Hp | discriminate].
Defined.

(** Twelve steps into a run: rank 0 has written its rows, rank 1 one row. *)
Lemma writer_terminates_witness :
  moves example_blocks example_schedule_mid
    (world_init (length example_blocks) example_old) = 12%nat
  ∧ (12 + world_measure example_blocks
            (run_schedule example_blocks example_schedule_mid
               (world_init (length example_blocks) example_old))
     ≤ world_measure example_blocks (world_init (length example_blocks) example_old))%nat.
Proof.
  assert (moves example_blocks example_schedule_mid
            (world_init (length example_blocks) example_old) = 12%nat) as Hm
    by (by vm_compute).
  split; [exact Hm|].
  apply (writer_terminates example_blocks example_old 12).
  rewrite <- Hm. apply run_schedule_nsteps.
Defined.

Lemma parallel_chain_file_witness :
  (1 ≤ 2)%nat ∧ (Z.to_nat 6 ≤ length Reference.Aparam0)%nat
  ∧ length (file (run_schedule
                    ((λ r, chain_rows (walkers (M := Reference.libm)
                                         (G := Reference.scripted Reference.draws_two_steps)
                                         Reference.sevens (Z.of_nat r) 2 6 Reference.Aparam0
                                         Reference.dev0 1 Reference.uCo1 Reference.vCo1
                                         Reference.Vis1 Reference.Sigma1)) <$> seq 0 2)
                    example_schedule (world_init 2 example_old)))
    = (2 * Z.to_nat 2)%nat.
Proof.
  assert (Z.to_nat 6 ≤ length Reference.Aparam0)%nat as HA by (vm_compute; lia).
  split; [lia|]. split; [exact HA|].
  apply (parallel_chain_file (M := Reference.libm)
           (G := Reference.scripted Reference.draws_two_steps)
           6 Reference.dev0 1 Reference.uCo1 Reference.vCo1 Reference.Vis1 Reference.Sigma1
           (λ _, Reference.sevens) 2 Reference.Aparam0 2 example_old).
  - lia.
  - exact HA.
  - apply run_schedule_reachable.
  - intros p c. vm_compute. destruct p as [|[|p]]; intros [= <-]; eauto.
Defined.
End WriterRuns.

(** ** What the evaluator reads *)

Section MoreLoops.
Context {St : Type}.

Lemma for_loop_ext n : ∀ i (body body' : Z → St → St) s,
  (∀ j s', i ≤ j < i + Z.of_nat n → body j s' = body' j s') →
  for_loop n i body s = for_loop n i body' s.
Proof.
  induction n as [|n IH]; intros i body body' s Hbody; [done|].
  simpl. rewrite (Hbody i s) by lia. apply IH. intros j s' Hj. apply Hbody. lia.
Qed.
End MoreLoops.

Section Frame.
Context {M : Libm}.
Open Scope float_scope.

Lemma add_neg_zero_r x : x + (- 0) = x.
Proof.
  apply Prim2SF_inj. rewrite add_spec.
  change (Prim2SF (- 0)) with (S754_zero true).
  by destruct (Prim2SF x) as [[]| | |].
Qed.

(** X19: with no data point ([Npts] zero or less) and no negative flux or
    width, [like] is minus zero and the posterior is the prior. *)
Theorem post_without_data Nparam Aparam Npts uCo vCo Vis Sigma :
  (Npts ≤ 0)%Z → penalized Aparam = false →
  like Nparam Aparam Npts uCo vCo Vis Sigma = - 0
  ∧ post Nparam Aparam Npts uCo vCo Vis Sigma = prior Nparam Aparam.
Proof.
  intros HN Hpen.
  assert (like Nparam Aparam Npts uCo vCo Vis Sigma = - 0) as Hlike.
  { rewrite like_unpenalized by done. rewrite for_upto_count.
    by replace (Z.to_nat Npts) with 0%nat by lia. }
  split; [done|]. unfold post. rewrite Hlike. apply add_neg_zero_r.
Qed.

Lemma model_ext Nparam Nparam' Aparam Aparam' u v :
  (∀ i, (0 ≤ i < 6)%Z → Aparam.[i] = Aparam'.[i]) →
  model u v Nparam Aparam = model u v Nparam' Aparam'.
Proof.
  intros HA. unfold model, model_parts.
  by rewrite !(HA 0%Z), !(HA 1%Z), !(HA 2%Z), !(HA 3%Z), !(HA 4%Z), !(HA 5%Z) by lia.
Qed.

Lemma prior_ext Nparam Nparam' Aparam Aparam' :
  (∀ i, (0 ≤ i < 6)%Z → Aparam.[i] = Aparam'.[i]) →
  prior Nparam Aparam = prior Nparam' Aparam'.
Proof.
  intros HA. unfold prior. by rewrite (HA 0%Z), (HA 1%Z), (HA 4%Z), (HA 5%Z) by lia.
Qed.

Lemma like_ext Nparam Nparam' Aparam Aparam' Npts uCo vCo Vis Sigma uCo' vCo' Vis' Sigma' :
  (∀ i, (0 ≤ i < 6)%Z → Aparam.[i] = Aparam'.[i]) →
  (∀ i, (0 ≤ i < Npts)%Z →
        uCo.[i] = uCo'.[i] ∧ vCo.[i] = vCo'.[i]
        ∧ Vis.[i] = Vis'.[i] ∧ Sigma.[i] = Sigma'.[i]) →
  like Nparam Aparam Npts uCo vCo Vis Sigma
  = like Nparam' Aparam' Npts uCo' vCo' Vis' Sigma'.
Proof.
  intros HA Hdata. unfold like, penalized.
  rewrite (HA 0%Z), (HA 1%Z), (HA 4%Z), (HA 5%Z) by lia.
  destruct (_ || _); [done|]. cbv zeta. f_equal. rewrite !for_upto_count.
  apply for_loop_ext. intros j chi2 Hj. unfold chi2_body.
  destruct (Hdata (j - 1)%Z) as (-> & -> & -> & ->); [lia|].
  by rewrite (model_ext Nparam Nparam' Aparam Aparam').
Qed.

(** X20: the evaluator reads the cells 0 to 5 of [Aparam] and the first
    [Npts] cells of the data arrays, and nothing else: [Nparam], the other
    parameters and the cells of the data arrays from [Npts] on have no
    effect on [model], [prior], [like] and [post]. *)
Theorem post_reads_first_points Nparam Nparam' Aparam Aparam' Npts
    uCo vCo Vis Sigma uCo' vCo' Vis' Sigma' :
  (∀ i, (0 ≤ i < 6)%Z → Aparam.[i] = Aparam'.[i]) →
  (∀ i, (0 ≤ i < Npts)%Z →
        uCo.[i] = uCo'.[i] ∧ vCo.[i] = vCo'.[i]
        ∧ Vis.[i] = Vis'.[i] ∧ Sigma.[i] = Sigma'.[i]) →
  (∀ u v, model u v Nparam Aparam = model u v Nparam' Aparam')
  ∧ prior Nparam Aparam = prior Nparam' Aparam'
  ∧ like Nparam Aparam Npts uCo vCo Vis Sigma
    = like Nparam' Aparam' Npts uCo' vCo' Vis' Sigma'
  ∧ post Nparam Aparam Npts uCo vCo Vis Sigma
    = post Nparam' Aparam' Npts uCo' vCo' Vis' Sigma'.
Proof.
  intros HA Hdata.
  pose proof (prior_ext Nparam Nparam' Aparam Aparam' HA) as Hprior.
  pose proof (like_ext Nparam Nparam' Aparam Aparam' Npts uCo vCo Vis Sigma
                uCo' vCo' Vis' Sigma' HA Hdata) as Hlike.
  split; [intros u v; by apply model_ext|].
  split; [done|]. split; [done|].
  unfold post. by rewrite Hprior, Hlike.
Qed.
End Frame.

Section FrameRuns.
Open Scope float_scope.

Lemma post_without_data_witness :
  penalized Reference.Aparam0 = false
  ∧ post (M := Reference.libm) 6 Reference.Aparam0 0 [] [] [] []
    = prior (M := Reference.libm) 6 Reference.Aparam0.
Proof.
  assert (penalized Reference.Aparam0 = false) as H by reflexivity.
  split; [exact H|].
  apply (post_without_data (M := Reference.libm) 6 Reference.Aparam0 0 [] [] [] []);
    [lia | exact H].
Defined.

Lemma post_reads_first_points_witness :
  post (M := Reference.libm) 6 Reference.Aparam0 1
    Reference.uCo1 Reference.vCo1 Reference.Vis1 Reference.Sigma1
  = post (M := Reference.libm) 7 (Reference.Aparam0 ++ [1]) 1
      (Reference.uCo1 ++ [2]) (Reference.vCo1 ++ [3])
      (Reference.Vis1 ++ [4]) (Reference.Sigma1 ++ [5]).
Proof.
  apply (post_reads_first_points (M := Reference.libm) 6 7
           Reference.Aparam0 (Reference.Aparam0 ++ [1]) 1).
  - intros i Hi.
    assert (i = 0 ∨ i = 1 ∨ i = 2 ∨ i = 3 ∨ i = 4 ∨ i = 5)%Z
      as [-> | [-> | [-> | [-> | [-> | ->]]]]] by lia; reflexivity.
  - intros i Hi. assert (i = 0%Z) as -> by lia. repeat split.
Defined.
End FrameRuns.

(** ** The reader of the data file *)

Section Reader.

Lemma read_body_row st pt more :
  r_file st = row_fields pt ++ more → read_body st = (4, absorb st pt).
Proof.
  intros Hf. unfold read_body, absorb. rewrite Hf. reflexivity.
Qed.

Lemma read_body_stop st :
  no_number_ahead (r_file st) →
  ∃ result st',
    read_body st = (result, st') ∧ result ≤ 0 ∧ r_Npts st' = r_Npts st
    ∧ r_U st' = r_U st ∧ r_V st' = r_V st ∧ r_Vis st' = r_Vis st
    ∧ r_Sigma st' = r_Sigma st ∧ r_overrun st' = r_overrun st.
Proof.
  intros [Hf | [[fs' Hf] | [fs' Hf]]]; unfold read_body; rewrite Hf; simpl.
  - eexists _, _. split; [reflexivity|]. unfold EOF. repeat split; lia.
  - eexists _, _. split; [reflexivity|]. repeat split; lia.
  - eexists _, _. split; [reflexivity|]. repeat split; lia.
Qed.

(** Where reading stops, a further call of [fscanf] changes nothing. *)
Lemma read_body_end st :
  reading_stops (r_file st) → (read_body st).2 = st ∧ (read_body st).1 ≤ 0.
Proof.
  destruct st as [N U V Vis Sigma r1 r2 r3 r4 fs o]. simpl.
  intros [-> | [fs' ->]]; unfold read_body; simpl; (split; [reflexivity|]).
  - unfold EOF. lia.
  - lia.
Qed.

Lemma after_failure_length fs : (length (after_failure fs) ≤ length fs)%nat.
Proof. destruct fs as [|[x| |] fs]; simpl; lia. Qed.

Lemma after_failure_stops fs : reading_stops fs → after_failure fs = fs.
Proof. by intros [-> | [fs' ->]]. Qed.

Lemma read_loop_rows pts : ∀ fuel st more,
  r_file st = rows_fields pts ++ more →
  read_loop (length pts + fuel) st = read_loop fuel (foldl absorb st pts).
Proof.
  induction pts as [|pt pts IH]; intros fuel st more Hf; [done|].
  assert (Hf' : r_file st = row_fields pt ++ rows_fields pts ++ more).
  { rewrite Hf. unfold rows_fields. simpl. reflexivity. }
  simpl. rewrite (read_body_row st pt _ Hf'). simpl.
  apply (IH fuel (absorb st pt) more). simpl. rewrite Hf'. reflexivity.
Qed.

Lemma rows_fields_length pts rest :
  S (length (rows_fields pts ++ rest))
  = (length pts + S (3 * length pts + length rest))%nat.
Proof.
  rewrite length_app. unfold rows_fields.
  assert (length (pts ≫= row_fields) = 4 * length pts)%nat as ->; [|lia].
  induction pts as [|pt pts IH]; [done|].
  rewrite bind_cons, length_app, IH. simpl. lia.
Qed.

Lemma absorbed_file pts : ∀ st more,
  r_file st = rows_fields pts ++ more → r_file (foldl absorb st pts) = more.
Proof.
  induction pts as [|pt pts IH]; intros st more Hf; [done|].
  simpl. apply IH. simpl. rewrite Hf. unfold rows_fields. simpl. reflexivity.
Qed.

Lemma absorbed_Npts pts : ∀ st,
  r_Npts (foldl absorb st pts) = r_Npts st + Z.of_nat (length pts).
Proof.
  induction pts as [|pt pts IH]; intros st; simpl; [lia|].
  rewrite IH. simpl. lia.
Qed.

Lemma insert_between {A} (l : list A) n x tail k :
  (n < length l)%nat →
  take (S n) (<[n := x]> l) ++ tail ++ drop (S n + k) (<[n := x]> l)
  = take n l ++ (x :: tail) ++ drop (n + S k) l.
Proof.
  intros Hn. rewrite drop_insert_lt by lia.
  rewrite (take_S_r _ _ x) by (by apply list_lookup_insert_eq).
  rewrite take_insert_ge by lia. rewrite <- app_assoc. simpl.
  by replace (S (n + k)) with (n + S k)%nat by lia.
Qed.

(** Within the arrays, the rows read fill the cells from [*Npts] on and
    leave the others as they were. *)
Lemma absorbed_arrays pts : ∀ st,
  let n := Z.to_nat (r_Npts st) in
  let k := length pts in
  0 ≤ r_Npts st →
  (n + k ≤ length (r_U st))%nat → (n + k ≤ length (r_V st))%nat →
  (n + k ≤ length (r_Vis st))%nat → (n + k ≤ length (r_Sigma st))%nat →
  let st' := foldl absorb st pts in
  r_U st' = take n (r_U st) ++ (p_u <$> pts) ++ drop (n + k) (r_U st)
  ∧ r_V st' = take n (r_V st) ++ (p_v <$> pts) ++ drop (n + k) (r_V st)
  ∧ r_Vis st' = take n (r_Vis st) ++ (p_vis <$> pts) ++ drop (n + k) (r_Vis st)
  ∧ r_Sigma st' = take n (r_Sigma st) ++ (p_sigma <$> pts) ++ drop (n + k) (r_Sigma st)
  ∧ r_overrun st' = r_overrun st.
Proof.
  induction pts as [|pt pts IH]; intros st n k H0 HU HV HVis HSigma; subst n k.
  - simpl. rewrite !Nat.add_0_r, !take_drop. done.
  - assert (E1 : Z.to_nat (r_Npts st + 1) = S (Z.to_nat (r_Npts st))) by lia.
    simpl in HU, HV, HVis, HSigma.
    destruct (IH (absorb st pt)) as (EU & EV & EVis & ESigma & Eo);
      [simpl; unfold store; rewrite ?length_insert; lia ..|].
    cbn [foldl length].
    simpl in EU, EV, EVis, ESigma, Eo. unfold store in EU, EV, EVis, ESigma.
    rewrite E1 in EU, EV, EVis, ESigma.
    rewrite EU, EV, EVis, ESigma, Eo, !fmap_cons.
    rewrite !insert_between by lia.
    repeat split.
    unfold in_array.
    replace (0 <=? r_Npts st) with true by lia.
    rewrite !(proj2 (Z.ltb_lt _ _)) by lia. simpl. apply orb_false_r.
Qed.

Lemma absorbed_reads pts : ∀ st,
  reads (foldl absorb st pts) = default (reads st) (last pts).
Proof.
  induction pts as [|pt pts IH]; intros st; [done|].
  cbn [foldl]. rewrite IH. destruct pts as [|pt' pts]; [by destruct pt|].
  rewrite last_cons_cons.
  destruct (last (pt' :: pts)) as [q|] eqn:E; [done|]. by apply last_None in E.
Qed.

(** A call takes the numbers that it converts and, when it fails at the
    beginning of a number, that beginning: [k] items at most. *)
Lemma scan_length k : ∀ fs,
  (length (scan k fs).1 + length (scan k fs).2 ≤ length fs
   ∧ length fs ≤ k + length (scan k fs).2
   ∧ length fs ≤ length (scan k fs).1 + length (scan k fs).2 + 1)%nat.
Proof.
  induction k as [|k IH]; intros [|[x| |] fs]; simpl; try lia.
  specialize (IH fs). destruct (scan k fs) as [xs rest]. simpl in *. lia.
Qed.

Lemma scan_numbers k : ∀ xs rest,
  (length xs < k)%nat → no_number_ahead rest →
  scan k ((Num <$> xs) ++ rest) = (xs, after_failure rest).
Proof.
  induction k as [|k IH]; intros xs rest Hk Hrest; [lia|].
  destruct xs as [|x xs].
  - by destruct Hrest as [-> | [[fs' ->] | [fs' ->]]].
  - simpl in Hk. rewrite fmap_cons. cbn [app scan].
    rewrite (IH xs rest); [done | lia | done].
Qed.

(** A turn of the loop that stores a point takes at least one field. *)
Lemma read_body_shorter st :
  0 < (read_body st).1 →
  (length (r_file (read_body st).2) < length (r_file st))%nat.
Proof.
  unfold read_body, fscanf4. destruct (r_file st) as [|f fs] eqn:Hf; [done|].
  pose proof (scan_length 4 (f :: fs)) as (Hlen & _ & _).
  destruct (scan 4 (f :: fs)) as [xs rest]. simpl in Hlen.
  destruct (0 <? Z.of_nat (length xs)) eqn:Hres; simpl; [|lia].
  intros _. apply Z.ltb_lt in Hres. lia.
Qed.

Lemma read_loop_fuel fuel : ∀ fuel' st,
  (length (r_file st) < fuel)%nat → (length (r_file st) < fuel')%nat →
  read_loop fuel st = read_loop fuel' st.
Proof.
  induction fuel as [|fuel IH]; intros fuel' st Hfuel Hfuel'; [lia|].
  destruct fuel' as [|fuel']; [lia|]. cbn [read_loop].
  pose proof (read_body_shorter st) as Hshort.
  destruct (read_body st) as [result st']. simpl in Hshort.
  destruct (0 <? result) eqn:Hres; [|done].
  apply Z.ltb_lt in Hres. specialize (Hshort Hres). apply IH; lia.
Qed.

Lemma read_loop_overrun fuel : ∀ st,
  r_overrun st = true → r_overrun (read_loop fuel st) = true.
Proof.
  induction fuel as [|fuel IH]; intros st Ho; [done|].
  cbn [read_loop].
  assert (r_overrun (read_body st).2 = true) as Ho'.
  { unfold read_body. destruct (fscanf4 (r_file st)) as [[result xs] rest].
    destruct (0 <? result); simpl; by rewrite Ho. }
  destruct (read_body st) as [result st']. simpl in Ho'.
  destruct (0 <? result); [by apply IH | done].
Qed.

Lemma absorbed_overrun pts : ∀ st,
  let n := Z.to_nat (r_Npts st) in
  let k := length pts in
  0 ≤ r_Npts st →
  (length (r_U st) < n + k ∨ length (r_V st) < n + k
   ∨ length (r_Vis st) < n + k ∨ length (r_Sigma st) < n + k)%nat →
  r_overrun st = true
  ∨ (n ≤ length (r_U st) ∧ n ≤ length (r_V st)
     ∧ n ≤ length (r_Vis st) ∧ n ≤ length (r_Sigma st))%nat →
  r_overrun (foldl absorb st pts) = true.
Proof.
  induction pts as [|pt pts IH]; intros st n k H0 Hsmall Hst; subst n k.
  - simpl in *. destruct Hst as [Ho | Hfit]; [done | lia].
  - cbn [foldl]. cbn [length] in Hsmall.
    assert (E1 : Z.to_nat (r_Npts st + 1) = S (Z.to_nat (r_Npts st))) by lia.
    apply IH; simpl; unfold store; rewrite ?length_insert, ?E1; [lia | lia |].
    destruct Hst as [-> | Hfit]; [by left|].
    unfold in_array.
    destruct (decide (Z.to_nat (r_Npts st) < length (r_U st)
                      ∧ Z.to_nat (r_Npts st) < length (r_V st)
                      ∧ Z.to_nat (r_Npts st) < length (r_Vis st)
                      ∧ Z.to_nat (r_Npts st) < length (r_Sigma st))%nat)
      as [Hin | Hout].
    + right. lia.
    + left. apply orb_true_iff. right. apply negb_true_iff.
      rewrite !andb_false_iff, !Z.ltb_ge. lia.
Qed.

Lemma insert_after {A} (l1 l : list A) k x :
  length l1 = k → (k < length l)%nat →
  <[k := x]> (l1 ++ drop k l) = l1 ++ [x] ++ drop (S k) l.
Proof.
  intros <- Hk. rewrite insert_app_r_alt by lia. rewrite Nat.sub_diag.
  destruct (drop (length l1) l) as [|y l'] eqn:Hd.
  - apply (f_equal length) in Hd. rewrite length_drop in Hd. simpl in Hd. lia.
  - simpl. f_equal. f_equal.
    replace (S (length l1)) with (length l1 + 1)%nat by lia.
    by rewrite <- drop_drop, Hd.
Qed.

(** The loop on a file of complete rows that fit into the arrays. *)
Lemma read_rows pts rest st :
  no_number_ahead rest →
  (length pts ≤ length (r_U st))%nat → (length pts ≤ length (r_V st))%nat →
  (length pts ≤ length (r_Vis st))%nat → (length pts ≤ length (r_Sigma st))%nat →
  ∃ final,
    read_loop (S (length (rows_fields pts ++ rest)))
      (reader_start (rows_fields pts ++ rest) st) = final
    ∧ r_Npts final = Z.of_nat (length pts)
    ∧ r_U final = (p_u <$> pts) ++ drop (length pts) (r_U st)
    ∧ r_V final = (p_v <$> pts) ++ drop (length pts) (r_V st)
    ∧ r_Vis final = (p_vis <$> pts) ++ drop (length pts) (r_Vis st)
    ∧ r_Sigma final = (p_sigma <$> pts) ++ drop (length pts) (r_Sigma st)
    ∧ r_overrun final = false.
Proof.
  intros Hrest HU HV HVis HSigma.
  set (st0 := reader_start (rows_fields pts ++ rest) st).
  assert (Hf : r_file st0 = rows_fields pts ++ rest) by done.
  rewrite rows_fields_length.
  rewrite (read_loop_rows pts _ st0 rest Hf). cbn [read_loop].
  destruct (read_body_stop (foldl absorb st0 pts))
    as (result & st' & -> & Hres & EN & EU & EV & EVis & ESigma & Eo).
  { by rewrite (absorbed_file pts st0 rest Hf). }
  rewrite (proj2 (Z.ltb_ge 0 result)) by lia.
  destruct (absorbed_arrays pts st0) as (AU & AV & AVis & ASigma & Ao);
    [done | done ..|].
  simpl in AU, AV, AVis, ASigma, Ao.
  exists st'. split; [done|]. rewrite EN, EU, EV, EVis, ESigma, Eo.
  rewrite absorbed_Npts, AU, AV, AVis, ASigma, Ao. simpl. repeat split; done.
Qed.

(** X15: [readData] on a file of complete rows, followed by nothing or by
    text that is not a number: whatever follows is ignored, [*Npts] is the
    number of rows, the four arrays hold the four columns in their first
    cells and keep their other cells, no store falls outside an array, and
    the return value tells only whether [fclose] has succeeded.  An empty
    file gives no point and leaves the arrays as they were. *)
Theorem readData_stores_the_rows fclose_ok pts rest st :
  no_number_ahead rest →
  (length pts ≤ length (r_U st))%nat → (length pts ≤ length (r_V st))%nat →
  (length pts ≤ length (r_Vis st))%nat → (length pts ≤ length (r_Sigma st))%nat →
  let out := readData true fclose_ok (rows_fields pts ++ rest) st in
  out.1 = (if fclose_ok then 0 else ERROR_FILE)
  ∧ r_Npts out.2 = Z.of_nat (length pts)
  ∧ r_U out.2 = (p_u <$> pts) ++ drop (length pts) (r_U st)
  ∧ r_V out.2 = (p_v <$> pts) ++ drop (length pts) (r_V st)
  ∧ r_Vis out.2 = (p_vis <$> pts) ++ drop (length pts) (r_Vis st)
  ∧ r_Sigma out.2 = (p_sigma <$> pts) ++ drop (length pts) (r_Sigma st)
  ∧ r_overrun out.2 = false.
Proof.
  intros Hrest HU HV HVis HSigma out.
  destruct (read_rows pts rest st Hrest HU HV HVis HSigma) as (final & Hfinal & Hstate).
  assert (out = (if fclose_ok then 0 else ERROR_FILE, final)) as ->.
  { unfold out, readData. rewrite Hfinal. by destruct fclose_ok. }
  split; [done | exact Hstate].
Qed.

(** A call of [fscanf] on one to three numbers followed by no number. *)
Lemma read_body_short st xs rest :
  r_file st = (Num <$> xs) ++ rest → (1 ≤ length xs ≤ 3)%nat → no_number_ahead rest →
  read_body st = (Z.of_nat (length xs), absorb_short st xs (after_failure rest)).
Proof.
  intros Hf Hxs Hrest. unfold read_body, fscanf4. rewrite Hf.
  rewrite (scan_numbers 4 xs rest) by (try done; lia).
  destruct xs as [|x xs]; [simpl in Hxs; lia|].
  rewrite fmap_cons. cbn [app].
  by rewrite (proj2 (Z.ltb_lt 0 (Z.of_nat (length (x :: xs))))) by (simpl; lia).
Qed.

(** The variables when complete rows and a short row have been stored. *)
Lemma absorb_short_stored pts xs fs rest st :
  (length pts < length (r_U st))%nat → (length pts < length (r_V st))%nat →
  (length pts < length (r_Vis st))%nat → (length pts < length (r_Sigma st))%nat →
  absorb_short (foldl absorb (reader_start fs st) pts) xs rest
  = {| r_Npts := Z.of_nat (length pts) + 1;
       r_U := (p_u <$> pts)
              ++ [nth 0 xs (p_u (default (reads st) (last pts)))]
              ++ drop (S (length pts)) (r_U st);
       r_V := (p_v <$> pts)
              ++ [nth 1 xs (p_v (default (reads st) (last pts)))]
              ++ drop (S (length pts)) (r_V st);
       r_Vis := (p_vis <$> pts)
                ++ [nth 2 xs (p_vis (default (reads st) (last pts)))]
                ++ drop (S (length pts)) (r_Vis st);
       r_Sigma := (p_sigma <$> pts)
                  ++ [nth 3 xs (p_sigma (default (reads st) (last pts)))]
                  ++ drop (S (length pts)) (r_Sigma st);
       r_read1 := nth 0 xs (p_u (default (reads st) (last pts)));
       r_read2 := nth 1 xs (p_v (default (reads st) (last pts)));
       r_read3 := nth 2 xs (p_vis (default (reads st) (last pts)));
       r_read4 := nth 3 xs (p_sigma (default (reads st) (last pts)));
       r_file := rest;
       r_overrun := false |}.
Proof.
  intros HU HV HVis HSigma. set (st0 := reader_start fs st).
  pose proof (absorbed_Npts pts st0) as HN. simpl in HN.
  destruct (absorbed_arrays pts st0) as (AU & AV & AVis & ASigma & Ao);
    [done | simpl; lia ..|].
  pose proof (absorbed_reads pts st0) as HR. change (reads st0) with (reads st) in HR.
  assert (R1 := f_equal p_u HR). assert (R2 := f_equal p_v HR).
  assert (R3 := f_equal p_vis HR). assert (R4 := f_equal p_sigma HR).
  simpl in AU, AV, AVis, ASigma, Ao, R1, R2, R3, R4.
  unfold absorb_short, store, in_array.
  rewrite HN, R1, R2, R3, R4, AU, AV, AVis, ASigma, Ao.
  rewrite Z.add_0_l, Nat2Z.id.
  rewrite !insert_after by (by rewrite ?length_fmap).
  rewrite !length_app, !length_fmap, !length_drop.
  rewrite !(proj2 (Z.ltb_lt _ _)) by lia.
  by rewrite (proj2 (Z.leb_le 0 (Z.of_nat (length pts)))) by lia.
Qed.

(** X16: [readData] on a file with a short row: complete rows, then one to
    three numbers, then no number.  The short row is stored as a point all
    the same: [*Npts] counts it, and the columns that it lacks take the
    values of the row before it (of the uninitialised locals when there is
    no row before it).  Where the file ends there, or goes on with a
    character that cannot begin a number, these are the variables that
    [readData] leaves, and it returns 0.  Where the file goes on with the
    beginning of a number, a sign with no digit for instance, [fscanf] has
    taken that from the file and the loop reads on behind it. *)
Theorem readData_short_row pts xs rest st :
  (1 ≤ length xs ≤ 3)%nat → no_number_ahead rest →
  (length pts < length (r_U st))%nat → (length pts < length (r_V st))%nat →
  (length pts < length (r_Vis st))%nat → (length pts < length (r_Sigma st))%nat →
  let prev := default (reads st) (last pts) in
  let stored :=
    {| r_Npts := Z.of_nat (length pts) + 1;
       r_U := (p_u <$> pts) ++ [nth 0 xs (p_u prev)] ++ drop (S (length pts)) (r_U st);
       r_V := (p_v <$> pts) ++ [nth 1 xs (p_v prev)] ++ drop (S (length pts)) (r_V st);
       r_Vis := (p_vis <$> pts) ++ [nth 2 xs (p_vis prev)]
                ++ drop (S (length pts)) (r_Vis st);
       r_Sigma := (p_sigma <$> pts) ++ [nth 3 xs (p_sigma prev)]
                  ++ drop (S (length pts)) (r_Sigma st);
       r_read1 := nth 0 xs (p_u prev); r_read2 := nth 1 xs (p_v prev);
       r_read3 := nth 2 xs (p_vis prev); r_read4 := nth 3 xs (p_sigma prev);
       r_file := after_failure rest;
       r_overrun := false |} in
  readData true true (rows_fields pts ++ (Num <$> xs) ++ rest) st
  = (0, read_loop (S (length (after_failure rest))) stored)
  ∧ (reading_stops rest →
     readData true true (rows_fields pts ++ (Num <$> xs) ++ rest) st = (0, stored)).
Proof.
  intros Hxs Hrest HU HV HVis HSigma prev stored.
  assert (readData true true (rows_fields pts ++ (Num <$> xs) ++ rest) st
          = (0, read_loop (S (length (after_failure rest))) stored)) as Hgo.
  { unfold readData. f_equal.
    set (st0 := reader_start (rows_fields pts ++ (Num <$> xs) ++ rest) st).
    assert (Hf : r_file st0 = rows_fields pts ++ (Num <$> xs) ++ rest) by done.
    remember (read_loop (S (length (after_failure rest))) stored) as final eqn:E.
    rewrite rows_fields_length. rewrite (read_loop_rows pts _ st0 _ Hf).
    cbn [read_loop].
    rewrite (read_body_short _ xs rest (absorbed_file pts st0 _ Hf) Hxs Hrest).
    rewrite (proj2 (Z.ltb_lt 0 (Z.of_nat (length xs)))) by lia.
    unfold st0. rewrite (absorb_short_stored pts xs _ _ st HU HV HVis HSigma).
    fold prev. fold stored. subst final.
    pose proof (after_failure_length rest) as Hlen.
    apply read_loop_fuel; simpl; rewrite ?length_app, ?length_fmap; lia. }
  split; [exact Hgo|].
  intros Hstop. rewrite Hgo. f_equal.
  assert (reading_stops (r_file stored)) as Hstop'.
  { simpl. by rewrite after_failure_stops. }
  cbn [read_loop]. destruct (read_body_end stored Hstop') as [Hst Hres].
  destruct (read_body stored) as [result st']. simpl in Hst, Hres. subst st'.
  by rewrite (proj2 (Z.ltb_ge 0 result)) by lia.
Qed.

(** X17: [readData] does not compare [*Npts] with the sizes of the arrays:
    on a file with more rows than one of the arrays has cells it stores
    outside that array, whatever follows the rows. *)
Theorem readData_overruns_short_arrays fclose_ok pts rest st :
  (length (r_U st) < length pts ∨ length (r_V st) < length pts
   ∨ length (r_Vis st) < length pts ∨ length (r_Sigma st) < length pts)%nat →
  r_overrun (readData true fclose_ok (rows_fields pts ++ rest) st).2 = true.
Proof.
  intros Hsmall. unfold readData.
  set (st0 := reader_start (rows_fields pts ++ rest) st).
  assert (Hf : r_file st0 = rows_fields pts ++ rest) by done.
  assert (r_overrun (read_loop (S (length (rows_fields pts ++ rest))) st0) = true)
    as Ho; [|by destruct fclose_ok].
  rewrite rows_fields_length.
  rewrite (read_loop_rows pts _ st0 rest Hf).
  apply read_loop_overrun, absorbed_overrun; simpl; [done | lia |].
  right. lia.
Qed.





(** X21: the posterior that the sampler evaluates on what [readData] has
    read from a file of complete rows is the posterior of the columns of
    the file: what the arrays held before, and the cells that they have
    beyond the rows, have no effect. *)
Theorem post_of_data_file {M : Libm} fclose_ok pts rest st Nparam Aparam :
  no_number_ahead rest →
  (length pts ≤ length (r_U st))%nat → (length pts ≤ length (r_V st))%nat →
  (length pts ≤ length (r_Vis st))%nat → (length pts ≤ length (r_Sigma st))%nat →
  let out := (readData true fclose_ok (rows_fields pts ++ rest) st).2 in
  post Nparam Aparam (r_Npts out) (r_U out) (r_V out) (r_Vis out) (r_Sigma out)
  = post Nparam Aparam (Z.of_nat (length pts))
      (p_u <$> pts) (p_v <$> pts) (p_vis <$> pts) (p_sigma <$> pts).
Proof.
  intros Hrest HU HV HVis HSigma out.
  destruct (read_rows pts rest st Hrest HU HV HVis HSigma)
    as (final & Hfinal & HN & EU & EV & EVis & ESigma & _).
  assert (out = final) as ->.
  { unfold out, readData. rewrite Hfinal. by destruct fclose_ok. }
  rewrite HN, EU, EV, EVis, ESigma. unfold post. f_equal.
  apply like_ext; [done|]. intros i Hi. unfold arr.
  rewrite !lookup_total_app_l by (rewrite length_fmap; lia). done.
Qed.

End Reader.

Section ReaderRuns.

Lemma readData_stores_the_rows_witness :
  no_number_ahead [Junk; Num 1%float]
  ∧ r_Npts (readData true true (rows_fields example_points ++ [Junk; Num 1%float])
              example_reader).2 = 2
  ∧ r_U (readData true true (rows_fields example_points ++ [Junk; Num 1%float])
           example_reader).2 = [1; 5; 0]%float.
Proof.
  assert (no_number_ahead [Junk; Num 1%float]) as H by (right; right; by eexists).
  split; [exact H|].
  destruct (readData_stores_the_rows true example_points [Junk; Num 1%float]
              example_reader H) as (_ & HN & HU & _); [simpl; lia ..|].
  split; [exact HN | exact HU].
Defined.

(** A file that ends with the short row [10], on arrays of three cells;
    and the file of complete rows followed by [10 - 1 2 3], on arrays of
    five cells: the sign is taken from the file, and [1 2 3] makes a fourth
    point. *)
Lemma readData_short_row_witness :
  (1 ≤ length [10%float] ≤ 3)%nat
  ∧ no_number_ahead [Part; Num 1%float; Num 2%float; Num 3%float]
  ∧ r_Npts (readData true true (rows_fields example_points ++ (Num <$> [10%float]) ++ [])
              example_reader).2 = 3
  ∧ r_U (readData true true (rows_fields example_points ++ (Num <$> [10%float]) ++ [])
           example_reader).2 = [1; 5; 10]%float
  ∧ r_V (readData true true (rows_fields example_points ++ (Num <$> [10%float]) ++ [])
           example_reader).2 = [2; 6; 6]%float
  ∧ r_Npts (readData true true
              (rows_fields example_points ++ (Num <$> [10%float])
               ++ [Part; Num 1%float; Num 2%float; Num 3%float])
              example_wide_reader).2 = 4
  ∧ r_U (readData true true
           (rows_fields example_points ++ (Num <$> [10%float])
            ++ [Part; Num 1%float; Num 2%float; Num 3%float])
           example_wide_reader).2 = [1; 5; 10; 1; 0]%float
  ∧ r_Sigma (readData true true
               (rows_fields example_points ++ (Num <$> [10%float])
                ++ [Part; Num 1%float; Num 2%float; Num 3%float])
               example_wide_reader).2 = [4; 8; 8; 8; 0]%float.
Proof.
  assert (1 ≤ length [10%float] ≤ 3)%nat as H by (simpl; lia).
  assert (no_number_ahead [Part; Num 1%float; Num 2%float; Num 3%float]) as HP
    by (right; left; by eexists).
  split; [exact H|]. split; [exact HP|].
  destruct (readData_short_row example_points [10%float] [] example_reader H)
    as [_ Hstop]; [by left | simpl; lia ..|].
  rewrite (Hstop (or_introl eq_refl)).
  destruct (readData_short_row example_points [10%float]
              [Part; Num 1%float; Num 2%float; Num 3%float] example_wide_reader H HP)
    as [Hgo _]; [simpl; lia ..|].
  rewrite Hgo. repeat split; reflexivity.
Defined.

Lemma readData_overruns_short_arrays_witness :
  (length (r_U example_reader) < length (example_points ++ example_points))%nat
  ∧ r_overrun (readData true true (rows_fields (example_points ++ example_points) ++ [])
                 example_reader).2 = true.
Proof.
  assert (length (r_U example_reader) < length (example_points ++ example_points))%nat
    as H by (simpl; lia).
  split; [exact H|].
  apply (readData_overruns_short_arrays true (example_points ++ example_points) []
           example_reader).
  left. exact H.
Defined.

Lemma post_of_data_file_witness :
  no_number_ahead [Junk]
  ∧ post (M := Reference.libm) 6 Reference.Aparam0
      (r_Npts (readData true true (rows_fields example_points ++ [Junk]) example_reader).2)
      (r_U (readData true true (rows_fields example_points ++ [Junk]) example_reader).2)
      (r_V (readData true true (rows_fields example_points ++ [Junk]) example_reader).2)
      (r_Vis (readData true true (rows_fields example_points ++ [Junk]) example_reader).2)
      (r_Sigma (readData true true (rows_fields example_points ++ [Junk]) example_reader).2)
    = post (M := Reference.libm) 6 Reference.Aparam0 (Z.of_nat (length example_points))
        (p_u <$> example_points) (p_v <$> example_points)
        (p_vis <$> example_points) (p_sigma <$> example_points).
Proof.
  assert (no_number_ahead [Junk]) as H by (right; right; by eexists).
  split; [exact H|].
  apply (post_of_data_file (M := Reference.libm) true example_points [Junk]
           example_reader 6 Reference.Aparam0 H); simpl; lia.
Defined.

End ReaderRuns.
